(** * The streaming session of the Virtual Banking Assistant web client

    A shallow embedding of [frontend/react-web/src/Content.js]: the PCM codec
    ([floatToPcm16], [pcm16ToFloat] and the byte and text framing around
    them), and the event handlers of the [Content] component (the WebSocket
    handlers, the connection timer, [cleanup], the microphone callback). *)

From Stdlib Require Import ZArith QArith Qround Qabs Qpower Lia.
From Stdlib.Strings Require Import Byte Ascii String.
From stdpp Require Import base option list strings.

#[local] Open Scope Z_scope.

(** ** JavaScript numbers

    A Number is an IEEE-754 binary64 value.  The finite ones are rationals;
    the codec only multiplies by [0x8000] and [0x7FFF] and divides by
    [32768.0], and on the values it meets (elements of a [Float32Array],
    16-bit integers) these operations are exact: see [binary32_scaled_exact]
    and [pcm16_sample_binary32] below.  Finite numbers are therefore carried
    as exact rationals, next to the three non-finite values. Negative zero is
    identified with zero: no operation here tells them apart. *)
Inductive number : Type :=
  | Finite (q : Q)
  | PosInf
  | NegInf
  | NaN.

Module Number.

Definition of_Z (z : Z) : number := Finite (inject_Z z).

(** [a < b] of the language: false as soon as one side is NaN. *)
Definition lt (a b : number) : bool :=
  match a, b with
  | NaN, _ | _, NaN => false
  | _, NegInf => false
  | NegInf, _ => true
  | PosInf, _ => false
  | Finite _, PosInf => true
  | Finite p, Finite q => negb (Qle_bool q p)
  end.

(** [Math.min(a, b)] and [Math.max(a, b)]. *)
Definition min (a b : number) : number :=
  match a, b with
  | NaN, _ | _, NaN => NaN
  | _, _ => if lt b a then b else a
  end.

Definition max (a b : number) : number :=
  match a, b with
  | NaN, _ | _, NaN => NaN
  | _, _ => if lt a b then b else a
  end.

Definition Qsign (q : Q) : comparison := Z.compare (Qnum q) 0.

(** [a * b]. *)
Definition mul (a b : number) : number :=
  match a, b with
  | NaN, _ | _, NaN => NaN
  | Finite p, Finite q => Finite (p * q)
  | Finite p, PosInf | PosInf, Finite p =>
      match Qsign p with Eq => NaN | Gt => PosInf | Lt => NegInf end
  | Finite p, NegInf | NegInf, Finite p =>
      match Qsign p with Eq => NaN | Gt => NegInf | Lt => PosInf end
  | PosInf, PosInf | NegInf, NegInf => PosInf
  | PosInf, NegInf | NegInf, PosInf => NegInf
  end.

End Number.

Module Conv.

(** Truncation toward zero, the [truncate] of ECMAScript's conversions. *)
Definition truncate (q : Q) : Z := Z.quot (Qnum q) (Zpos (Qden q)).

(** [ToInt16]: what storing a Number into an [Int16Array] element does.
    Non-finite values give 0; finite ones are truncated toward zero and
    wrapped modulo 2^16 into the signed range. *)
Definition ToInt16 (n : number) : Z :=
  match n with
  | Finite q =>
      let int16bit := truncate q mod 2 ^ 16 in
      if 2 ^ 15 <=? int16bit then int16bit - 2 ^ 16 else int16bit
  | _ => 0
  end.

(** [ToIndex]: the length argument of a typed-array constructor.  NaN is
    0, a fraction is truncated, and a negative or infinite value raises a
    RangeError ([None]).  The limit of 2^53 - 1 on the other side is not
    modelled: the argument here is half a [byteLength], itself below it. *)
Definition ToIndex (n : number) : option nat :=
  match n with
  | NaN => Some 0%nat
  | Finite q =>
      let i := truncate q in
      if 0 <=? i then Some (Z.to_nat i) else None
  | _ => None
  end.

End Conv.

(** ** Bytes, [DataView] accessors, base64 *)

Definition byte_to_Z (b : byte) : Z := Z.of_N (Byte.to_N b).

Definition Z_to_byte (z : Z) : byte :=
  default x00 (Byte.of_N (Z.to_N (z mod 256))).

Module DataView.

(** [view.getInt16(byteOffset, true)]: RangeError ([None]) when the two
    bytes are not inside the buffer. *)
Definition getInt16 (view : list byte) (byteOffset : nat) : option Z :=
  match view !! byteOffset, view !! S byteOffset with
  | Some lo, Some hi =>
      let u := byte_to_Z lo + 256 * byte_to_Z hi in
      Some (if 2 ^ 15 <=? u then u - 2 ^ 16 else u)
  | _, _ => None
  end.

(** [view.setInt16(byteOffset, value, true)]. *)
Definition setInt16 (view : list byte) (byteOffset : nat) (value : Z)
  : option (list byte) :=
  if decide (byteOffset + 2 <= length view)%nat then
    let u := value mod 2 ^ 16 in
    Some (<[S byteOffset := Z_to_byte (u / 256)]>
            (<[byteOffset := Z_to_byte u]> view))
  else None.

End DataView.

Module Base64.

Definition alphabet : string :=
  "ABCDEFGHIJKLMNOPQRSTUVWXYZabcdefghijklmnopqrstuvwxyz0123456789+/".

Definition digit (n : Z) : ascii :=
  match String.get (Z.to_nat n) alphabet with
  | Some c => c
  | None => "="%char
  end.

(** [btoa] applied to the binary string [String.fromCharCode.apply(null, bytes)]. *)
Fixpoint btoa (bytes : list byte) : string :=
  match bytes with
  | [] => EmptyString
  | [a] =>
      let n := byte_to_Z a * 16 in
      String (digit (n / 64)) (String (digit (n mod 64)) "==")
  | [a; b] =>
      let n := (byte_to_Z a * 256 + byte_to_Z b) * 4 in
      String (digit (n / 4096))
        (String (digit (n / 64 mod 64)) (String (digit (n mod 64)) "="))
  | a :: b :: c :: rest =>
      let n := (byte_to_Z a * 256 + byte_to_Z b) * 256 + byte_to_Z c in
      String (digit (n / 262144))
        (String (digit (n / 4096 mod 64))
           (String (digit (n / 64 mod 64))
              (String (digit (n mod 64)) (btoa rest))))
  end.

Definition value (c : ascii) : option Z :=
  let n := Z.of_N (N_of_ascii c) in
  if (65 <=? n) && (n <=? 90) then Some (n - 65)
  else if (97 <=? n) && (n <=? 122) then Some (n - 71)
  else if (48 <=? n) && (n <=? 57) then Some (n + 4)
  else if n =? 43 then Some 62
  else if n =? 47 then Some 63
  else None.

Definition is_ascii_whitespace (c : ascii) : bool :=
  let n := N_of_ascii c in
  (n =? 9)%N || (n =? 10)%N || (n =? 12)%N || (n =? 13)%N || (n =? 32)%N.

(** The characters before a final [=], when there is one; [r] is the text
    reversed. *)
Definition drop_equals (r : list ascii) : option (list ascii) :=
  match r with
  | c :: r' => if Ascii.eqb c "="%char then Some r' else None
  | [] => None
  end.

Definition strip_padding (data : list ascii) : list ascii :=
  if (length data mod 4 =? 0)%nat then
    match drop_equals (rev data) with
    | Some r1 =>
        match drop_equals r1 with
        | Some r2 => rev r2
        | None => rev r1
        end
    | None => data
    end
  else data.

Fixpoint groups (codes : list Z) : list byte :=
  match codes with
  | a :: b :: c :: d :: rest =>
      let n := ((a * 64 + b) * 64 + c) * 64 + d in
      Z_to_byte (n / 65536) :: Z_to_byte (n / 256) :: Z_to_byte n :: groups rest
  | [a; b; c] =>
      let n := ((a * 64 + b) * 64 + c) / 4 in
      [Z_to_byte (n / 256); Z_to_byte n]
  | [a; b] => [Z_to_byte ((a * 64 + b) / 16)]
  | _ => []
  end.

(** [atob]: the forgiving base64 decoding of the platform.  ASCII white
    space is dropped, one or two trailing [=] are removed when the length
    is a multiple of four, and a length of 1 modulo 4 or a character
    outside the alphabet raises InvalidCharacterError ([None]).  The
    result is the binary string, one byte per character. *)
Definition atob (data : string) : option (list byte) :=
  let chars :=
    strip_padding
      (filter (fun c => is_ascii_whitespace c = false) (list_ascii_of_string data)) in
  if (length chars mod 4 =? 1)%nat then None
  else groups <$> mapM value chars.

End Base64.

(** ** The PCM codec of [Content.js] *)

(** [floatToPcm16]: each element is clamped with
    [Math.max(-1, Math.min(1, input[i]))], scaled by [0x8000] below zero and
    by [0x7FFF] otherwise, and stored into an [Int16Array]. *)
Definition floatToPcm16 (input : list number) : list Z :=
  map (fun input_i =>
         let s := Number.max (Number.of_Z (-1)) (Number.min (Number.of_Z 1) input_i) in
         Conv.ToInt16
           (if Number.lt s (Number.of_Z 0)
            then Number.mul s (Number.of_Z 0x8000)
            else Number.mul s (Number.of_Z 0x7FFF)))
      input.

(** [pcm16ToFloat]: a [Float32Array] of [buffer.byteLength / 2] elements,
    element [i] being [getInt16(i * 2, true) / 32768.0].  The quotient is a
    16-bit integer over 2^15, which a [Float32Array] element holds exactly. *)
Definition pcm16ToFloat (buffer : list byte) : option (list number) :=
  length_ ← Conv.ToIndex (Finite (inject_Z (Z.of_nat (length buffer)) / 2));
  mapM (fun i =>
          int16 ← DataView.getInt16 buffer (i * 2);
          Some (Finite (inject_Z int16 / 32768)))
       (seq 0 length_).

(** The body of [processor.onaudioprocess] between the samples and the
    [send]: the [Int16Array] is written into a fresh [ArrayBuffer] of twice
    its length with [setInt16(index * 2, value, true)], and the bytes go
    through [btoa]. *)
Fixpoint forEach_setInt16 (pcm16 : list Z) (index : nat) (view : list byte)
  : option (list byte) :=
  match pcm16 with
  | [] => Some view
  | value :: rest =>
      view' ← DataView.setInt16 view (index * 2) value;
      forEach_setInt16 rest (S index) view'
  end.

Definition pcm16_bytes (pcm16 : list Z) : option (list byte) :=
  forEach_setInt16 pcm16 0 (replicate (length pcm16 * 2) x00).

Definition encode_bytes (input : list number) : option (list byte) :=
  pcm16_bytes (floatToPcm16 input).

Definition encode (input : list number) : option string :=
  Base64.btoa <$> encode_bytes input.

Definition decode (bytes : list byte) : option (list number) := pcm16ToFloat bytes.

(** ** Reference forms of the codec, for the statements below *)

(** The 16-bit little-endian samples of a buffer, a trailing odd byte left out. *)
Fixpoint int16_le (bytes : list byte) : list Z :=
  match bytes with
  | lo :: hi :: rest =>
      let u := byte_to_Z lo + 256 * byte_to_Z hi in
      (if 2 ^ 15 <=? u then u - 2 ^ 16 else u) :: int16_le rest
  | _ => []
  end.

Definition pcm_sample (int16 : Z) : number := Finite (inject_Z int16 / 32768).

(** The two bytes [setInt16(_, value, true)] writes. *)
Definition int16_bytes (value : Z) : list byte :=
  let u := value mod 2 ^ 16 in [Z_to_byte u; Z_to_byte (u / 256)].

Definition Qclamp (q : Q) : Q :=
  if Qle_bool 1 q then 1%Q else if Qle_bool q (-1) then (-1)%Q else q.

(** The scaling of a clamped sample: by 32768 below zero, by 32767 otherwise. *)
Definition Qscale (s : Q) : Q :=
  if Qle_bool 0 s then (s * 32767)%Q else (s * 32768)%Q.

(** What the code stores for a sample: the scaled clamped value truncated
    toward zero; NaN gives 0. *)
Definition quantize (x : number) : Z :=
  match x with
  | Finite q => Conv.truncate (Qscale (Qclamp q))
  | PosInf => 32767
  | NegInf => -32768
  | NaN => 0
  end.

(** The mapping in the words of the specification: the floor of the scaled
    clamped value. *)
Definition quantize_floor (x : number) : Z :=
  match x with
  | Finite q => Qfloor (Qscale (Qclamp q))
  | PosInf => 32767
  | NegInf => -32768
  | NaN => 0
  end.

(** A positive sample loses one unit through decode then encode. *)
Definition requantized (int16 : Z) : Z := if 0 <? int16 then int16 - 1 else int16.

(** The 6-bit digits [btoa] writes before the padding, and the number of
    [=] it pads with. *)
Fixpoint sextets (bytes : list byte) : list Z :=
  match bytes with
  | [] => []
  | [a] => let n := byte_to_Z a * 16 in [n / 64; n mod 64]
  | [a; b] =>
      let n := (byte_to_Z a * 256 + byte_to_Z b) * 4 in
      [n / 4096; n / 64 mod 64; n mod 64]
  | a :: b :: c :: rest =>
      let n := (byte_to_Z a * 256 + byte_to_Z b) * 256 + byte_to_Z c in
      n / 262144 :: n / 4096 mod 64 :: n / 64 mod 64 :: n mod 64 :: sextets rest
  end.

Fixpoint padding (bytes : list byte) : nat :=
  match bytes with
  | [] => 0
  | [_] => 2
  | [_; _] => 1
  | _ :: _ :: _ :: rest => padding rest
  end.

(** Values a binary floating-point format with [prec] bits of precision and
    exponents of the unit in the last place between [emin] and [emax] holds
    exactly. *)
Definition representable (prec emin emax : Z) (q : Q) : Prop :=
  exists m e : Z,
    Z.abs m < 2 ^ prec /\ emin <= e <= emax /\ (q == inject_Z m * 2 ^ e)%Q.

Definition binary32 : Q -> Prop := representable 24 (-149) 104.
Definition binary64 : Q -> Prop := representable 53 (-1074) 971.

(** ** The [Content] component

    The component is event driven: the platform calls its handlers one at a
    time.  Its state is the three [useState] cells the session uses, the
    three [useRef] cells, and the platform objects the handlers reach
    through them: the sockets with their connection timers, the audio
    contexts, the worklet nodes with the messages posted to their ports, and
    the script processors of the microphone graph. *)

Inductive ReadyState := CONNECTING | OPEN | CLOSING | CLOSED.

#[global] Instance ReadyState_eq_dec : EqDecision ReadyState.
Proof. solve_decision. Defined.

(** A property of a parsed inbound message, as far as the handler looks at
    it: absent, a string, or a value of another type, kept as the text
    [ToString] gives for it. *)
Inductive jsval :=
  | Undefined
  | Str (s : string)
  | Other (image : string).

Definition ToString (v : jsval) : string :=
  match v with
  | Undefined => "undefined"
  | Str s => s
  | Other image => image
  end.

(** [v === s] for a string literal [s]. *)
Definition strict_eq (v : jsval) (s : string) : bool :=
  match v with
  | Str t => String.eqb t s
  | _ => false
  end.

(** [JSON.parse(event.data)] as an object, with the properties read here. *)
Record chunk := { event : jsval; speaker : jsval; data : jsval }.

(** An element of the [messages] state. *)
Record message := { isMine : bool; text : jsval }.

(** What the component posts to the port of the worklet node. *)
Inductive port_message :=
  | PortStop
  | PortData (audio : list number).

(** A socket: its ready state, the frames given to [send], oldest first, and
    the [isTalking] its handlers close over, that of the render whose effect
    created it. *)
Record WebSocket := {
  readyState : ReadyState;
  sent : list string;
  closure_isTalking : bool;
}.

Record AudioWorkletNode := {
  port : list port_message;
  connected : bool;
}.

(** Where [initAudioWorklet] throws: creating the new context, loading the
    module or creating the node, resuming; or not at all. *)
Inductive init_outcome :=
  | FailContext
  | FailModule
  | FailResume
  | InitOk.

(** An engaged run of the effect: the [isTalking] of its render, and whether
    its [initAudio] still awaits [initAudioWorklet]. *)
Record effect_run := {
  run_isTalking : bool;
  awaiting : bool;
}.

Record Content := {
  (* useState *)
  messages : list message;
  isTalking : bool;
  isEngaged : bool;
  (* useRef *)
  audioContextRef : option nat;
  audioWorkletNodeRef : option nat;
  wsRef : option nat;
  (* platform objects, named by their position *)
  contexts : list bool;              (* an audio context; [true] once closed *)
  worklets : list AudioWorkletNode;
  sockets : list WebSocket;
  timers : list nat;                 (* pending connection timeouts, by socket *)
  processors : list nat;             (* script processors, by audio context *)
  microphones : nat;                 (* calls of initMicrophone not yet settled *)
  (* the effect on [isEngaged] *)
  effect_dep : bool;                 (* the [isEngaged] the effect last ran with *)
  mounted : option nat;              (* the run whose isComponentMounted is true *)
  runs : list effect_run;            (* the engaged runs of the effect *)
}.

Definition initial : Content :=
  {| messages := []; isTalking := false; isEngaged := false;
     audioContextRef := None; audioWorkletNodeRef := None; wsRef := None;
     contexts := []; worklets := []; sockets := []; timers := [];
     processors := []; microphones := 0;
     effect_dep := false; mounted := None; runs := [] |}.

(** *** Field updates *)

Definition setMessages (f : list message -> list message) (c : Content) : Content :=
  {| messages := f (messages c); isTalking := isTalking c; isEngaged := isEngaged c;
     audioContextRef := audioContextRef c;
     audioWorkletNodeRef := audioWorkletNodeRef c; wsRef := wsRef c;
     contexts := contexts c; worklets := worklets c; sockets := sockets c;
     timers := timers c; processors := processors c; microphones := microphones c;
     effect_dep := effect_dep c; mounted := mounted c; runs := runs c |}.

Definition setTalking (b : bool) (c : Content) : Content :=
  {| messages := messages c; isTalking := b; isEngaged := isEngaged c;
     audioContextRef := audioContextRef c;
     audioWorkletNodeRef := audioWorkletNodeRef c; wsRef := wsRef c;
     contexts := contexts c; worklets := worklets c; sockets := sockets c;
     timers := timers c; processors := processors c; microphones := microphones c;
     effect_dep := effect_dep c; mounted := mounted c; runs := runs c |}.

Definition setEngaged (b : bool) (c : Content) : Content :=
  {| messages := messages c; isTalking := isTalking c; isEngaged := b;
     audioContextRef := audioContextRef c;
     audioWorkletNodeRef := audioWorkletNodeRef c; wsRef := wsRef c;
     contexts := contexts c; worklets := worklets c; sockets := sockets c;
     timers := timers c; processors := processors c; microphones := microphones c;
     effect_dep := effect_dep c; mounted := mounted c; runs := runs c |}.

Definition set_audioContextRef (r : option nat) (c : Content) : Content :=
  {| messages := messages c; isTalking := isTalking c; isEngaged := isEngaged c;
     audioContextRef := r; audioWorkletNodeRef := audioWorkletNodeRef c;
     wsRef := wsRef c; contexts := contexts c; worklets := worklets c;
     sockets := sockets c; timers := timers c; processors := processors c;
     microphones := microphones c; effect_dep := effect_dep c; mounted := mounted c;
     runs := runs c |}.

Definition set_audioWorkletNodeRef (r : option nat) (c : Content) : Content :=
  {| messages := messages c; isTalking := isTalking c; isEngaged := isEngaged c;
     audioContextRef := audioContextRef c; audioWorkletNodeRef := r; wsRef := wsRef c;
     contexts := contexts c; worklets := worklets c; sockets := sockets c;
     timers := timers c; processors := processors c; microphones := microphones c;
     effect_dep := effect_dep c; mounted := mounted c; runs := runs c |}.

Definition set_wsRef (r : option nat) (c : Content) : Content :=
  {| messages := messages c; isTalking := isTalking c; isEngaged := isEngaged c;
     audioContextRef := audioContextRef c;
     audioWorkletNodeRef := audioWorkletNodeRef c; wsRef := r; contexts := contexts c;
     worklets := worklets c; sockets := sockets c; timers := timers c;
     processors := processors c; microphones := microphones c;
     effect_dep := effect_dep c; mounted := mounted c; runs := runs c |}.

Definition set_contexts (f : list bool -> list bool) (c : Content) : Content :=
  {| messages := messages c; isTalking := isTalking c; isEngaged := isEngaged c;
     audioContextRef := audioContextRef c;
     audioWorkletNodeRef := audioWorkletNodeRef c; wsRef := wsRef c;
     contexts := f (contexts c); worklets := worklets c; sockets := sockets c;
     timers := timers c; processors := processors c; microphones := microphones c;
     effect_dep := effect_dep c; mounted := mounted c; runs := runs c |}.

Definition set_worklets (f : list AudioWorkletNode -> list AudioWorkletNode) (c : Content) : Content :=
  {| messages := messages c; isTalking := isTalking c; isEngaged := isEngaged c;
     audioContextRef := audioContextRef c;
     audioWorkletNodeRef := audioWorkletNodeRef c; wsRef := wsRef c;
     contexts := contexts c; worklets := f (worklets c); sockets := sockets c;
     timers := timers c; processors := processors c; microphones := microphones c;
     effect_dep := effect_dep c; mounted := mounted c; runs := runs c |}.

Definition set_sockets (f : list WebSocket -> list WebSocket) (c : Content) : Content :=
  {| messages := messages c; isTalking := isTalking c; isEngaged := isEngaged c;
     audioContextRef := audioContextRef c;
     audioWorkletNodeRef := audioWorkletNodeRef c; wsRef := wsRef c;
     contexts := contexts c; worklets := worklets c; sockets := f (sockets c);
     timers := timers c; processors := processors c; microphones := microphones c;
     effect_dep := effect_dep c; mounted := mounted c; runs := runs c |}.

Definition set_timers (f : list nat -> list nat) (c : Content) : Content :=
  {| messages := messages c; isTalking := isTalking c; isEngaged := isEngaged c;
     audioContextRef := audioContextRef c;
     audioWorkletNodeRef := audioWorkletNodeRef c; wsRef := wsRef c;
     contexts := contexts c; worklets := worklets c; sockets := sockets c;
     timers := f (timers c); processors := processors c; microphones := microphones c;
     effect_dep := effect_dep c; mounted := mounted c; runs := runs c |}.

Definition set_processors (f : list nat -> list nat) (c : Content) : Content :=
  {| messages := messages c; isTalking := isTalking c; isEngaged := isEngaged c;
     audioContextRef := audioContextRef c;
     audioWorkletNodeRef := audioWorkletNodeRef c; wsRef := wsRef c;
     contexts := contexts c; worklets := worklets c; sockets := sockets c;
     timers := timers c; processors := f (processors c); microphones := microphones c;
     effect_dep := effect_dep c; mounted := mounted c; runs := runs c |}.

Definition set_microphones (f : nat -> nat) (c : Content) : Content :=
  {| messages := messages c; isTalking := isTalking c; isEngaged := isEngaged c;
     audioContextRef := audioContextRef c;
     audioWorkletNodeRef := audioWorkletNodeRef c; wsRef := wsRef c;
     contexts := contexts c; worklets := worklets c; sockets := sockets c;
     timers := timers c; processors := processors c; microphones := f (microphones c);
     effect_dep := effect_dep c; mounted := mounted c; runs := runs c |}.

Definition set_effect (dep : bool) (live : option nat) (c : Content) : Content :=
  {| messages := messages c; isTalking := isTalking c; isEngaged := isEngaged c;
     audioContextRef := audioContextRef c;
     audioWorkletNodeRef := audioWorkletNodeRef c; wsRef := wsRef c;
     contexts := contexts c; worklets := worklets c; sockets := sockets c;
     timers := timers c; processors := processors c; microphones := microphones c;
     effect_dep := dep; mounted := live; runs := runs c |}.

Definition set_runs (f : list effect_run -> list effect_run) (c : Content) : Content :=
  {| messages := messages c; isTalking := isTalking c; isEngaged := isEngaged c;
     audioContextRef := audioContextRef c;
     audioWorkletNodeRef := audioWorkletNodeRef c; wsRef := wsRef c;
     contexts := contexts c; worklets := worklets c; sockets := sockets c;
     timers := timers c; processors := processors c; microphones := microphones c;
     effect_dep := effect_dep c; mounted := mounted c; runs := f (runs c) |}.

(** *** Sockets and timers *)

Definition set_readyState (r : ReadyState) (ws : WebSocket) : WebSocket :=
  {| readyState := r; sent := sent ws; closure_isTalking := closure_isTalking ws |}.

(** [ws.close(...)]: a connecting or open socket starts closing, another
    one is left as it is. *)
Definition WebSocket_close (ws : WebSocket) : WebSocket :=
  match readyState ws with
  | CONNECTING | OPEN => set_readyState CLOSING ws
  | _ => ws
  end.

(** [ws.send(frame)]. *)
Definition WebSocket_send (frame : string) (ws : WebSocket) : WebSocket :=
  {| readyState := readyState ws; sent := sent ws ++ [frame];
     closure_isTalking := closure_isTalking ws |}.

(** The socket [wsRef.current], when there is one. *)
Definition current_socket (c : Content) : option WebSocket :=
  i ← wsRef c; sockets c !! i.

Definition close_current (c : Content) : Content :=
  match wsRef c with
  | Some i => set_sockets (alter WebSocket_close i) c
  | None => c
  end.

Definition clearTimeout (id : nat) (c : Content) : Content :=
  set_timers (filter (fun t => t <> id)) c.

(** The number of sockets created so far: the connect attempts. *)
Definition attempts (c : Content) : nat := length (sockets c).

(** [port.postMessage(msg)] on the node [audioWorkletNodeRef.current]. *)
Definition postMessage (msg : port_message) (c : Content) : Content :=
  match audioWorkletNodeRef c with
  | Some n =>
      set_worklets
        (alter (fun w => {| port := port w ++ [msg]; connected := connected w |}) n) c
  | None => c
  end.

(** *** [cleanup] *)

Definition cleanup (c : Content) : Content :=
  let c1 :=
    match current_socket c with
    | Some ws =>
        match readyState ws with
        | OPEN | CONNECTING => close_current c   (* close(1000, 'User disengaged') *)
        | _ => c
        end
    | None => c
    end in
  match audioContextRef c1 ≫= fun i => contexts c1 !! i with
  | Some true => c1                              (* state === 'closed' *)
  | _ =>
      let c2 :=
        match audioWorkletNodeRef c1 with
        | Some n =>
            set_worklets
              (alter (fun w => {| port := port w; connected := false |}) n) c1
        | None => c1
        end in
      match audioContextRef c2 with
      | Some i => set_contexts (fun cx => <[i := true]> cx) c2
      | None => c2
      end
  end.

(** *** [connectWebSocket] and the handlers it installs

    [new WebSocket(apiUrl, apiKey)] does not throw for the two constants of
    [aws-exports.js], so the [catch] around the body is never entered.  The
    new socket is numbered by its position; so is its timer, the
    [connectionTimeout] its handlers close over. *)
Definition connectWebSocket (isTalking0 : bool) (c : Content) : Content :=
  let id := length (sockets c) in
  set_timers (fun tm => tm ++ [id])
    (set_wsRef (Some id)
       (set_sockets
          (fun sk => sk ++ [{| readyState := CONNECTING; sent := [];
                               closure_isTalking := isTalking0 |}]) c)).

(** The callback given to [setTimeout(..., 5000)]. *)
Definition connectionTimeout (isTalking0 : bool) (c : Content) : Content :=
  match current_socket c with
  | Some ws =>
      if decide (readyState ws <> OPEN)
      then connectWebSocket isTalking0 (close_current c)
      else c
  | None => c
  end.

(** [onopen]: the timer is cleared and [initMicrophone] is started. *)
Definition onopen (id : nat) (c : Content) : Content :=
  set_microphones S (clearTimeout id c).

(** [onmessage].  [parsed] is [None] when [JSON.parse] throws or gives a
    value without properties: the outer [catch] logs and returns.  In the
    media branch the loop over [charCodeAt] copies the binary string of
    [atob] byte for byte; an exception of [atob] is caught by the inner
    [catch]. *)
Definition onmessage (isTalking0 : bool) (parsed : option chunk) (c : Content)
  : Content :=
  match parsed with
  | None => c
  | Some chunk =>
      if strict_eq (event chunk) "stop" then
        setTalking false (postMessage PortStop c)
      else if strict_eq (event chunk) "media" then
        match Base64.atob (ToString (data chunk)) ≫= pcm16ToFloat with
        | Some float32Array =>
            if (0 <? length float32Array)%nat && bool_decide (is_Some (audioWorkletNodeRef c))
            then
              let c1 := postMessage (PortData float32Array) c in
              if negb isTalking0 then setTalking true c1 else c1
            else c
        | None => c
        end
      else if strict_eq (event chunk) "text" then
        setMessages
          (fun messages =>
             messages ++ [{| isMine := strict_eq (speaker chunk) "user";
                             text := data chunk |}]) c
      else c
  end.

Definition onerror (id : nat) (c : Content) : Content :=
  setTalking false (clearTimeout id c).

Definition normal_closure : Z := 1000.

Definition onclose (id : nat) (code : Z) (c : Content) : Content :=
  let c1 := setTalking false (clearTimeout id c) in
  if decide (code <> normal_closure)
  then c1                                        (* 'Abnormal closure, not disengaging' *)
  else setEngaged false c1.

(** *** The microphone *)

(** [initMicrophone] once [getUserMedia] has settled: when access is granted
    a script processor is created on [audioContextRef.current] and its
    [onaudioprocess] installed. *)
Definition initMicrophone (granted : bool) (c : Content) : Content :=
  if granted then
    match audioContextRef c with
    | Some i => set_processors (fun pr => pr ++ [i]) c
    | None => c
    end
  else c.

(** [processor.onaudioprocess]. *)
Definition onaudioprocess (input : list number) (c : Content) : Content :=
  match wsRef c, current_socket c with
  | Some i, Some ws =>
      if decide (readyState ws <> OPEN) then c
      else
        match encode input with
        | Some base64 => set_sockets (alter (WebSocket_send base64) i) c
        | None => c
        end
  | _, _ => c
  end.

(** *** The audio output *)

Definition initAudioWorklet (outcome : init_outcome) (c : Content) : Content * bool :=
  let c1 :=
    match audioContextRef c with
    | Some i => set_contexts (fun cx => <[i := true]> cx) c
    | None => c
    end in
  match outcome with
  | FailContext => (c1, false)
  | _ =>
      let c2 :=
        set_audioContextRef (Some (length (contexts c1)))
          (set_contexts (fun cx => cx ++ [false]) c1) in
      match outcome with
      | FailModule => (c2, false)
      | _ =>
          let c3 :=
            set_audioWorkletNodeRef (Some (length (worklets c2)))
              (set_worklets (fun wl => wl ++ [{| port := []; connected := true |}]) c2) in
          (c3, match outcome with InitOk => true | _ => false end)
      end
  end.

(** [initAudio] of the effect run [g], from the point where
    [initAudioWorklet] settles. *)
Definition initAudio (g : nat) (isTalking0 : bool) (outcome : init_outcome)
    (c : Content) : Content :=
  let '(c1, audioInitialized) := initAudioWorklet outcome c in
  let isComponentMounted := bool_decide (mounted c1 = Some g) in
  if negb audioInitialized || negb isComponentMounted then
    if isComponentMounted then setEngaged false c1 else c1
  else connectWebSocket isTalking0 c1.

(** *** The effect and the link *)

(** React commits a render: when [isEngaged] differs from the value the
    effect last ran with, the cleanup function of the previous run is called
    (it clears [isComponentMounted] and calls [cleanup]), then the effect
    body. *)
Definition commit (c : Content) : Content :=
  if bool_decide (isEngaged c = effect_dep c) then c
  else
    let c1 := match mounted c with Some _ => cleanup c | None => c end in
    if negb (isEngaged c1) then set_effect false None (cleanup c1)
    else
      set_runs (fun rn => rn ++ [{| run_isTalking := isTalking c1; awaiting := true |}])
        (set_effect true (Some (length (runs c1))) c1).

(** The Engage / Disengage link. *)
Definition onClick (c : Content) : Content :=
  let c1 := setEngaged (negb (isEngaged c)) c in
  if isEngaged c then setTalking false c1 else c1.

(** *** Inputs and steps

    An input is one call of a handler by the platform.  The platform only
    calls a handler when the object is in a state for it (a socket opens
    once, from connecting; a message arrives on an open socket; a cleared or
    fired timer does not fire); an input outside these conditions changes
    nothing. *)
Inductive input :=
  | Click
  | Commit
  | AudioWorkletSettled (g : nat) (outcome : init_outcome)
  | Timeout (id : nat)
  | WsOpen (id : nat)
  | WsMessage (id : nat) (parsed : option chunk)
  | WsError (id : nat)
  | WsClose (id : nat) (code : Z)
  | MicrophoneSettled (granted : bool)
  | AudioProcess (p : nat) (samples : list number)
  | NeedData (n : nat).

Definition step (c : Content) (i : input) : Content :=
  match i with
  | Click => onClick c
  | Commit => commit c
  | AudioWorkletSettled g outcome =>
      match runs c !! g with
      | Some r =>
          if awaiting r then
            initAudio g (run_isTalking r) outcome
              (set_runs (alter (fun r => {| run_isTalking := run_isTalking r;
                                            awaiting := false |}) g) c)
          else c
      | None => c
      end
  | Timeout id =>
      match sockets c !! id with
      | Some ws =>
          if bool_decide (id ∈ timers c)
          then connectionTimeout (closure_isTalking ws) (clearTimeout id c)
          else c
      | None => c
      end
  | WsOpen id =>
      match sockets c !! id with
      | Some ws =>
          if decide (readyState ws = CONNECTING)
          then onopen id (set_sockets (alter (set_readyState OPEN) id) c)
          else c
      | None => c
      end
  | WsMessage id parsed =>
      match sockets c !! id with
      | Some ws =>
          if decide (readyState ws = OPEN)
          then onmessage (closure_isTalking ws) parsed c
          else c
      | None => c
      end
  | WsError id =>
      match sockets c !! id with
      | Some ws => if decide (readyState ws = CLOSED) then c else onerror id c
      | None => c
      end
  | WsClose id code =>
      match sockets c !! id with
      | Some ws =>
          if decide (readyState ws = CLOSED) then c
          else onclose id code (set_sockets (alter (set_readyState CLOSED) id) c)
      | None => c
      end
  | MicrophoneSettled granted =>
      match microphones c with
      | S n => initMicrophone granted (set_microphones (fun _ => n) c)
      | O => c
      end
  | AudioProcess p samples =>
      match processors c !! p with
      | Some cx =>
          match contexts c !! cx with
          | Some false => onaudioprocess samples c
          | _ => c
          end
      | None => c
      end
  | NeedData n =>
      match worklets c !! n with
      | Some _ => setTalking false c             (* port.onmessage of the node *)
      | None => c
      end
  end.

Definition run (c : Content) (trace : list input) : Content :=
  foldl step c trace.

(** Modelled from the spec: the worklet processor behind the port
    ([audio-processor.js]) is not among the sources.  The specification of
    the render pipeline has [enqueue] append a block to the play-out queue
    and [interrupt] clear all queued and in-flight audio at once; a data
    message is an [enqueue] and a stop message an [interrupt].  What can
    still be queued or playing is thus among the blocks posted since the
    last stop. *)
Definition render_queue (log : list port_message) : list (list number) :=
  foldl (fun queue msg =>
           match msg with
           | PortStop => []
           | PortData audio => queue ++ [audio]
           end) [] log.

Definition pending_playback (c : Content) : list (list number) :=
  match audioWorkletNodeRef c ≫= fun n => worklets c !! n with
  | Some w => render_queue (port w)
  | None => []
  end.

(** The capture side: the processors of the microphone graph, the pending
    microphone requests, and the sockets with what was sent on them. *)
Definition capture_state (c : Content)
  : list nat * nat * list bool * option nat * list WebSocket :=
  (processors c, microphones c, contexts c, wsRef c, sockets c).

(** *** States and messages used in the statements *)

(** The session engaged, its audio output ready, its first socket connecting. *)
Definition engaged_connecting : Content :=
  run initial [Click; Commit; AudioWorkletSettled 0 InitOk].

(** The same with the socket open and the microphone graph installed. *)
Definition engaged_open : Content :=
  run engaged_connecting [WsOpen 0; MicrophoneSettled true].

Definition stop_chunk : chunk :=
  {| event := Str "stop"; speaker := Undefined; data := Undefined |}.

Definition media_chunk (base64Data : jsval) : chunk :=
  {| event := Str "media"; speaker := Undefined; data := base64Data |}.

Definition text_chunk (speaker data : jsval) : chunk :=
  {| event := Str "text"; speaker := speaker; data := data |}.

(** The transcript entry of a text message. *)
Definition entry (received : jsval * jsval) : message :=
  {| isMine := strict_eq received.1 "user"; text := received.2 |}.

(** The text handler run over the [(speaker, data)] pairs received, in order. *)
Definition receive_texts (isTalking0 : bool) (c : Content)
    (received : list (jsval * jsval)) : Content :=
  foldl (fun c r => onmessage isTalking0 (Some (text_chunk r.1 r.2)) c) c received.

(** The open session after an abnormal close of its socket. *)
Definition engaged_dropped : Content :=
  run engaged_open [WsClose 0 1006].

(** Disengaging, engaging again and reaching an open socket. *)
Definition reengage : list input :=
  [Click; Commit; Click; Commit; AudioWorkletSettled 1 InitOk;
   WsOpen 1; MicrophoneSettled true].

(** The user disengages while the first socket is still connecting, and the
    effect has run its cleanup. *)
Definition disengaged_while_connecting : Content :=
  run engaged_connecting [Click; Commit].

(** A session in its retry loop: [wsRef] names the latest socket, which is
    still connecting, and its timer is pending. *)
Definition retrying (c : Content) : Prop :=
  exists id : nat,
    attempts c = S id /\ wsRef c = Some id /\ id ∈ timers c
    /\ readyState <$> sockets c !! id = Some CONNECTING.

(** Nothing is scheduled: no timer is pending, no [initAudio] is waiting,
    and the effect has run for the current engagement unless that is off. *)
Definition quiet (c : Content) : Prop :=
  timers c = []
  /\ Forall (fun r => awaiting r = false) (runs c)
  /\ (isEngaged c = effect_dep c \/ isEngaged c = false).

(** *** Relations used for the invariants of the session *)

(** The ready states in the order a socket goes through them. *)
Definition rank (r : ReadyState) : nat :=
  match r with
  | CONNECTING => 0
  | OPEN => 1
  | CLOSING => 2
  | CLOSED => 3
  end.

(** How a socket may differ from an earlier state of itself: frames are
    only added after those sent, the closure is the same, and the ready
    state has not gone back. *)
Definition evolves (ws ws' : WebSocket) : Prop :=
  sent ws `prefix_of` sent ws'
  /\ closure_isTalking ws' = closure_isTalking ws
  /\ (rank (readyState ws) <= rank (readyState ws'))%nat.

(** Every socket of [c] is still there in [c'], evolved. *)
Definition sockets_evolve (c c' : Content) : Prop :=
  forall (id : nat) (ws : WebSocket),
    sockets c !! id = Some ws ->
    exists ws', sockets c' !! id = Some ws' /\ evolves ws ws'.

(** The only audio context that may be open is the one of [audioContextRef]. *)
Definition single_open_context (c : Content) : Prop :=
  forall i : nat, contexts c !! i = Some false -> audioContextRef c = Some i.

(** A pending connection timer belongs to a socket that has neither opened
    nor closed. *)
Definition timers_pending (c : Content) : Prop :=
  forall id : nat,
    id ∈ timers c ->
    exists ws, sockets c !! id = Some ws
               /\ (readyState ws = CONNECTING \/ readyState ws = CLOSING).

(** What [cleanup] leaves behind: the socket of [wsRef] is closing or
    closed, and the context of [audioContextRef] is closed. *)
Definition torn_down (c : Content) : Prop :=
  (forall ws, current_socket c = Some ws ->
              readyState ws = CLOSING \/ readyState ws = CLOSED)
  /\ (forall i closed, audioContextRef c = Some i ->
                       contexts c !! i = Some closed -> closed = true).

(** The two halves of [cleanup]: the socket, then the audio output. *)
Definition cleanup_socket (c : Content) : Content :=
  match current_socket c with
  | Some ws =>
      match readyState ws with
      | OPEN | CONNECTING => close_current c
      | _ => c
      end
  | None => c
  end.

Definition cleanup_audio (c1 : Content) : Content :=
  match audioContextRef c1 ≫= fun i => contexts c1 !! i with
  | Some true => c1
  | _ =>
      let c2 :=
        match audioWorkletNodeRef c1 with
        | Some n =>
            set_worklets
              (alter (fun w => {| port := port w; connected := false |}) n) c1
        | None => c1
        end in
      match audioContextRef c2 with
      | Some i => set_contexts (fun cx => <[i := true]> cx) c2
      | None => c2
      end
  end.

(** * Properties of the codec *)

(** ** Bytes *)

Lemma byte_to_Z_range (b : byte) : 0 <= byte_to_Z b < 256.
Proof.
  unfold byte_to_Z. pose proof (Byte.to_N_bounded b) as H. lia.
Qed.

Lemma Z_to_byte_to_Z (b : byte) : Z_to_byte (byte_to_Z b) = b.
Proof.
  unfold Z_to_byte. rewrite Z.mod_small by apply byte_to_Z_range.
  unfold byte_to_Z. rewrite N2Z.id, Byte.of_to_N. reflexivity.
Qed.

Lemma byte_to_Z_to_byte (z : Z) : byte_to_Z (Z_to_byte z) = z mod 256.
Proof.
  unfold Z_to_byte, byte_to_Z.
  assert (Hr : 0 <= z mod 256 < 256) by (apply Z.mod_pos_bound; lia).
  destruct (Byte.of_N (Z.to_N (z mod 256))) as [b|] eqn:Hb.
  - apply Byte.to_of_N in Hb. simpl. rewrite Hb. lia.
  - apply Byte.of_N_None_iff in Hb. lia.
Qed.

Lemma list_pair_ind {A} (P : list A -> Prop) :
  P [] -> (forall x, P [x]) -> (forall x y l, P l -> P (x :: y :: l)) ->
  forall l, P l.
Proof.
  intros H0 H1 H2 l.
  enough (P l /\ forall x, P (x :: l)) by tauto.
  induction l as [|y l [IH1 IH2]]; split; auto.
Qed.

(** ** Decoding *)

Lemma truncate_inject_half (n : nat) :
  Conv.truncate (inject_Z (Z.of_nat n) / 2) = Z.of_nat (n / 2).
Proof.
  unfold Conv.truncate. cbn [Qnum Qden Qdiv Qmult Qinv inject_Z Pos.mul].
  rewrite Z.mul_1_r, Z.quot_div_nonneg by lia.
  symmetry. apply (Nat2Z.inj_div n 2).
Qed.

Lemma ToIndex_half (n : nat) :
  Conv.ToIndex (Finite (inject_Z (Z.of_nat n) / 2)) = Some (n / 2)%nat.
Proof.
  unfold Conv.ToIndex. rewrite truncate_inject_half.
  replace (0 <=? Z.of_nat (n / 2)) with true by (symmetry; apply Z.leb_le; lia).
  rewrite Nat2Z.id. reflexivity.
Qed.

Lemma length_int16_le (bytes : list byte) :
  length (int16_le bytes) = (length bytes / 2)%nat.
Proof.
  induction bytes as [| x | x y l IH] using list_pair_ind; try reflexivity.
  cbn [int16_le length]. rewrite IH.
  change (S (S (length l))) with (1 * 2 + length l)%nat.
  rewrite Nat.div_add_l by lia. reflexivity.
Qed.

Lemma getInt16_app (pre rest : list byte) (lo hi : byte) :
  DataView.getInt16 (pre ++ lo :: hi :: rest) (length pre)
  = Some (let u := byte_to_Z lo + 256 * byte_to_Z hi in
          if 2 ^ 15 <=? u then u - 2 ^ 16 else u).
Proof.
  unfold DataView.getInt16.
  rewrite (lookup_app_r pre) by lia.
  replace (S (length pre)) with (length pre + 1)%nat by lia.
  rewrite (lookup_app_r pre) by lia.
  replace (length pre - length pre)%nat with 0%nat by lia.
  replace (length pre + 1 - length pre)%nat with 1%nat by lia.
  reflexivity.
Qed.

Lemma getInt16_samples (pre rest : list byte) (k : nat) :
  length pre = (k * 2)%nat ->
  mapM (fun i =>
          int16 ← DataView.getInt16 (pre ++ rest) (i * 2);
          Some (Finite (inject_Z int16 / 32768)))
       (seq k (length rest / 2))
  = Some (map pcm_sample (int16_le rest)).
Proof.
  revert pre k.
  induction rest as [| x | x y l IH] using list_pair_ind; intros pre k Hpre;
    try reflexivity.
  change (length (x :: y :: l)) with (1 * 2 + length l)%nat.
  rewrite Nat.div_add_l by lia.
  cbn [Nat.add seq mapM int16_le map].
  rewrite <- Hpre, getInt16_app.
  specialize (IH (pre ++ [x; y]) (S k)).
  rewrite <- app_assoc in IH. cbn [app] in IH.
  rewrite IH by (rewrite length_app; cbn [length]; lia).
  reflexivity.
Qed.

Lemma pcm16ToFloat_samples (buffer : list byte) :
  pcm16ToFloat buffer = Some (map pcm_sample (int16_le buffer)).
Proof.
  unfold pcm16ToFloat. rewrite ToIndex_half. cbn [mbind option_bind].
  apply (getInt16_samples [] buffer 0). reflexivity.
Qed.

Lemma int16_le_odd (bytes : list byte) (x : byte) :
  Nat.even (length bytes) = true -> int16_le (bytes ++ [x]) = int16_le bytes.
Proof.
  induction bytes as [| y | y z l IH] using list_pair_ind; intros He;
    try reflexivity; try discriminate.
  cbn [app int16_le]. rewrite IH; [reflexivity | exact He].
Qed.

(** ** Encoding *)

Lemma setInt16_app (pre rest : list byte) (b0 b1 : byte) (value : Z) :
  DataView.setInt16 (pre ++ b0 :: b1 :: rest) (length pre) value
  = Some (pre ++ int16_bytes value ++ rest).
Proof.
  unfold DataView.setInt16.
  rewrite decide_True by (rewrite length_app; cbn [length]; lia).
  f_equal.
  replace (S (length pre)) with (length pre + 1)%nat by lia.
  replace (length pre) with (length pre + 0)%nat at 2 by lia.
  rewrite (insert_app_r pre _ 0), (insert_app_r pre _ 1).
  reflexivity.
Qed.

Lemma forEach_setInt16_bytes (pcm16 : list Z) (pre : list byte) (k : nat) :
  length pre = (k * 2)%nat ->
  forEach_setInt16 pcm16 k (pre ++ replicate (length pcm16 * 2) x00)
  = Some (pre ++ flat_map int16_bytes pcm16).
Proof.
  revert pre k.
  induction pcm16 as [|v l IH]; intros pre k Hpre.
  - reflexivity.
  - cbn [length Nat.mul Nat.add replicate forEach_setInt16 flat_map].
    rewrite <- Hpre, setInt16_app. cbn [mbind option_bind].
    specialize (IH (pre ++ int16_bytes v) (S k)).
    rewrite <- !app_assoc in IH. rewrite IH; [reflexivity|].
    rewrite length_app. cbn [int16_bytes length]. lia.
Qed.

Lemma pcm16_bytes_flat (pcm16 : list Z) :
  pcm16_bytes pcm16 = Some (flat_map int16_bytes pcm16).
Proof. apply (forEach_setInt16_bytes pcm16 [] 0). reflexivity. Qed.

Lemma int16_bytes_le (lo hi : byte) :
  int16_bytes (let u := byte_to_Z lo + 256 * byte_to_Z hi in
               if 2 ^ 15 <=? u then u - 2 ^ 16 else u) = [lo; hi].
Proof.
  pose proof (byte_to_Z_range lo). pose proof (byte_to_Z_range hi).
  cbv zeta. unfold int16_bytes.
  set (u := byte_to_Z lo + 256 * byte_to_Z hi).
  assert (Hu : (if 2 ^ 15 <=? u then u - 2 ^ 16 else u) mod 2 ^ 16 = u).
  { destruct (2 ^ 15 <=? u).
    - replace (u - 2 ^ 16) with (u + (-1) * 2 ^ 16) by lia.
      rewrite Z.mod_add by lia. apply Z.mod_small. subst u. lia.
    - apply Z.mod_small. subst u. lia. }
  rewrite Hu. cbv zeta.
  f_equal; [|f_equal].
  - rewrite <- (Z_to_byte_to_Z lo) at 1. unfold Z_to_byte. do 3 f_equal.
    subst u.
    replace (byte_to_Z lo + 256 * byte_to_Z hi)
      with (byte_to_Z lo + byte_to_Z hi * 256) by lia.
    apply Z_mod_plus_full.
  - rewrite <- (Z_to_byte_to_Z hi) at 1. f_equal.
    subst u.
    replace (byte_to_Z lo + 256 * byte_to_Z hi)
      with (byte_to_Z hi * 256 + byte_to_Z lo) by lia.
    rewrite Z.div_add_l by lia. rewrite Z.div_small; lia.
Qed.

Lemma int16_le_bytes (bytes : list byte) :
  Nat.even (length bytes) = true -> flat_map int16_bytes (int16_le bytes) = bytes.
Proof.
  induction bytes as [| y | y z l IH] using list_pair_ind; intros He;
    try reflexivity; try discriminate.
  cbn [int16_le flat_map]. rewrite int16_bytes_le, IH; [reflexivity | exact He].
Qed.

Lemma int16_le_range (bytes : list byte) :
  Forall (fun v => -32768 <= v <= 32767) (int16_le bytes).
Proof.
  induction bytes as [| y | y z l IH] using list_pair_ind; try constructor; [|exact IH].
  pose proof (byte_to_Z_range y). pose proof (byte_to_Z_range z).
  destruct (Z.leb_spec (2 ^ 15) (byte_to_Z y + 256 * byte_to_Z z)); lia.
Qed.

Lemma quot_bounds (n : Z) (d : positive) :
  (0 <= n -> n ÷ Z.pos d * Z.pos d <= n < (n ÷ Z.pos d + 1) * Z.pos d) /\
  (n <= 0 -> (n ÷ Z.pos d - 1) * Z.pos d < n <= n ÷ Z.pos d * Z.pos d).
Proof.
  pose proof (Z.quot_rem' n (Z.pos d)) as E.
  split; intros Hn.
  - pose proof (Z.rem_bound_pos n (Z.pos d) Hn ltac:(lia)). lia.
  - pose proof (Z.rem_bound_pos_neg n (Z.pos d) ltac:(lia) Hn). lia.
Qed.

Lemma wrap16_small (t : Z) :
  -32768 <= t <= 32767 ->
  (let int16bit := t mod 2 ^ 16 in
   if 2 ^ 15 <=? int16bit then int16bit - 2 ^ 16 else int16bit) = t.
Proof.
  intros Ht. cbv zeta.
  destruct (Z.le_gt_cases 0 t).
  - rewrite Z.mod_small by lia. destruct (Z.leb_spec (2 ^ 15) t); lia.
  - replace (t mod 2 ^ 16) with (t + 2 ^ 16).
    + destruct (Z.leb_spec (2 ^ 15) (t + 2 ^ 16)); lia.
    + apply Z.mod_unique with (q := -1); lia.
Qed.

(** The scaled clamped value stays within the 16-bit range, so the
    truncation is not wrapped. *)
Lemma truncate_scale_range (q : Q) :
  -32768 <= Conv.truncate (Qscale (Qclamp q)) <= 32767.
Proof.
  destruct q as [n d]. unfold Qclamp, Qscale, Qle_bool. cbn [Qnum Qden].
  destruct (Z.leb_spec (1 * Z.pos d) (n * 1)); [vm_compute; split; discriminate|].
  destruct (Z.leb_spec (n * 1) (-1 * Z.pos d)); [vm_compute; split; discriminate|].
  cbn [Qnum Qden].
  destruct (Z.leb_spec (0 * Z.pos d) (n * 1)); unfold Conv.truncate; cbn [Qnum Qden Qmult].
  - destruct (quot_bounds (n * 32767) (d * 1)) as [Hb _].
    specialize (Hb ltac:(lia)). rewrite Pos2Z.inj_mul in *. nia.
  - destruct (quot_bounds (n * 32768) (d * 1)) as [_ Hb].
    specialize (Hb ltac:(lia)). rewrite Pos2Z.inj_mul in *. nia.
Qed.

Lemma sample_quantize (x : number) :
  (let s := Number.max (Number.of_Z (-1)) (Number.min (Number.of_Z 1) x) in
   Conv.ToInt16
     (if Number.lt s (Number.of_Z 0)
      then Number.mul s (Number.of_Z 0x8000)
      else Number.mul s (Number.of_Z 0x7FFF))) = quantize x.
Proof.
  destruct x as [q| | |]; try reflexivity.
  pose proof (truncate_scale_range q) as Hr.
  cbv zeta. unfold quantize, Qclamp, Qscale in *.
  unfold Number.min, Number.max, Number.of_Z, Number.lt.
  change (inject_Z 1) with 1%Q. change (inject_Z 0) with 0%Q.
  change (inject_Z (-1)) with (-1)%Q.
  destruct (Qle_bool 1 q) eqn:H1; cbn [negb].
  - reflexivity.
  - destruct (Qle_bool q (-1)) eqn:H2; cbn [negb].
    + reflexivity.
    + destruct (Qle_bool 0 q) eqn:H3; cbn [negb Number.mul Conv.ToInt16];
        apply wrap16_small; exact Hr.
Qed.

Lemma floatToPcm16_quantize (input : list number) :
  floatToPcm16 input = map quantize input.
Proof.
  unfold floatToPcm16. apply map_ext. intros x. apply sample_quantize.
Qed.

Lemma quantize_range (x : number) : -32768 <= quantize x <= 32767.
Proof.
  destruct x; cbn [quantize]; try lia. apply truncate_scale_range.
Qed.

Lemma int16_le_of_bytes (pcm16 : list Z) :
  Forall (fun v => -32768 <= v <= 32767) pcm16 ->
  int16_le (flat_map int16_bytes pcm16) = pcm16.
Proof.
  induction 1 as [|v l Hv _ IH]; [reflexivity|].
  cbn [flat_map int16_bytes app int16_le]. rewrite IH. f_equal.
  rewrite !byte_to_Z_to_byte.
  assert (Hu : 0 <= v mod 2 ^ 16 < 2 ^ 16) by (apply Z.mod_pos_bound; lia).
  rewrite (Z.mod_small (v mod 2 ^ 16 / 256)).
  2:{ split; [apply Z.div_pos; lia | apply Z.div_lt_upper_bound; lia]. }
  replace (v mod 2 ^ 16 mod 256 + 256 * (v mod 2 ^ 16 / 256)) with (v mod 2 ^ 16)
    by (rewrite (Z.div_mod (v mod 2 ^ 16) 256) at 1; lia).
  apply wrap16_small. exact Hv.
Qed.

Lemma encode_bytes_flat (input : list number) :
  encode_bytes input = Some (flat_map int16_bytes (map quantize input)).
Proof.
  unfold encode_bytes. rewrite pcm16_bytes_flat, floatToPcm16_quantize. reflexivity.
Qed.

Lemma decode_encode_bytes (input : list number) :
  (bytes ← encode_bytes input; decode bytes)
  = Some (map (fun x => pcm_sample (quantize x)) input).
Proof.
  rewrite encode_bytes_flat. cbn [mbind option_bind]. unfold decode.
  rewrite pcm16ToFloat_samples, int16_le_of_bytes, map_map; [reflexivity|].
  apply Forall_forall. intros v Hv. apply list_elem_of_In, in_map_iff in Hv.
  destruct Hv as [x [<- _]]. apply quantize_range.
Qed.

Lemma pcm_sample_frac (k : Z) : (inject_Z k / 32768)%Q = (k # 32768).
Proof.
  unfold Qdiv, Qmult, Qinv, inject_Z. cbn [Qnum Qden].
  rewrite Z.mul_1_r. reflexivity.
Qed.

Lemma quantize_decoded (k : Z) :
  -32768 <= k <= 32767 ->
  quantize (Finite (inject_Z k / 32768)) = requantized k.
Proof.
  intros Hk. rewrite pcm_sample_frac.
  unfold quantize, requantized, Qclamp, Qle_bool. cbn [Qnum Qden].
  destruct (Z.leb_spec (1 * 32768) (k * 1)); [lia|].
  destruct (Z.leb_spec (k * 1) (-1 * 32768)).
  - assert (k = -32768) by lia. subst k. reflexivity.
  - unfold Qscale, Qle_bool. cbn [Qnum Qden].
    destruct (Z.leb_spec (0 * 32768) (k * 1)); unfold Conv.truncate;
      cbn [Qnum Qden Qmult]; change (Z.pos (32768 * 1)) with 32768.
    + rewrite Z.quot_div_nonneg by lia.
      destruct (Z.ltb_spec 0 k).
      * symmetry. apply Z.div_unique with (r := 32768 - k); lia.
      * assert (k = 0) by lia. subst k. reflexivity.
    + destruct (Z.ltb_spec 0 k); [lia|].
      apply Z.quot_mul. lia.
Qed.

Lemma encode_decode_bytes (b : list byte) :
  (samples ← decode b; encode_bytes samples)
  = Some (flat_map int16_bytes (map requantized (int16_le b))).
Proof.
  unfold decode. rewrite pcm16ToFloat_samples. cbn [mbind option_bind].
  rewrite encode_bytes_flat, map_map. do 2 f_equal.
  pose proof (int16_le_range b) as Hr.
  induction Hr as [|k l Hk _ IH]; [reflexivity|].
  cbn [map]. rewrite IH. f_equal. apply quantize_decoded. exact Hk.
Qed.

(** ** The quantization error *)

Lemma truncate_scale_bounds (n : Z) (d : positive) :
  - Z.pos d <= n <= Z.pos d ->
  let t := Conv.truncate (Qscale (Qclamp (n # d))) in
  (0 <= n -> t * Z.pos d <= n * 32767 < (t + 1) * Z.pos d) /\
  (n <= 0 -> (t - 1) * Z.pos d < n * 32768 <= t * Z.pos d).
Proof.
  intros Hn. unfold Qclamp, Qle_bool. cbn [Qnum Qden].
  destruct (Z.leb_spec (1 * Z.pos d) (n * 1)).
  { change (Conv.truncate (Qscale 1)) with 32767. cbv zeta. lia. }
  destruct (Z.leb_spec (n * 1) (-1 * Z.pos d)).
  { change (Conv.truncate (Qscale (-1))) with (-32768). cbv zeta. lia. }
  unfold Qscale, Qle_bool. cbn [Qnum Qden].
  destruct (Z.leb_spec (0 * Z.pos d) (n * 1)); unfold Conv.truncate;
    cbn [Qnum Qden Qmult]; rewrite Pos.mul_1_r; cbv zeta.
  - destruct (quot_bounds (n * 32767) d) as [Hb _]. specialize (Hb ltac:(lia)).
    split; [intros _; exact Hb | intros ?; assert (n = 0) by lia; subst n].
    change (0 * 32767) with 0. rewrite Z.quot_0_l by lia. lia.
  - destruct (quot_bounds (n * 32768) d) as [_ Hb]. specialize (Hb ltac:(lia)).
    split; [lia | intros _; exact Hb].
Qed.

Lemma quantize_error (q : Q) :
  (-1 <= q)%Q -> (q <= 1)%Q ->
  (Qabs (inject_Z (quantize (Finite q)) / 32768 - q) < 2 # 32768)%Q /\
  ((q <= 0)%Q -> (Qabs (inject_Z (quantize (Finite q)) / 32768 - q) < 1 # 32768)%Q).
Proof.
  intros Hlo Hhi. rewrite pcm_sample_frac.
  destruct q as [n d]. unfold Qle in Hlo, Hhi. cbn [Qnum Qden] in Hlo, Hhi.
  pose proof (truncate_scale_bounds n d ltac:(lia)) as Hb. cbv zeta in Hb.
  unfold quantize. set (t := Conv.truncate (Qscale (Qclamp (n # d)))) in *.
  destruct Hb as [Hpos Hneg].
  split; [|intros Hq; unfold Qle in Hq; cbn [Qnum Qden] in Hq];
    apply Qabs_Qlt_condition; unfold Qlt, Qminus, Qplus, Qopp;
    cbn [Qnum Qden]; rewrite !Pos2Z.inj_mul.
  - destruct (Z.le_gt_cases 0 n) as [H0|H0].
    + specialize (Hpos H0). nia.
    + specialize (Hneg ltac:(lia)). nia.
  - specialize (Hneg ltac:(lia)). nia.
Qed.

(** ** Exactness of the rational model

    An element of a [Float32Array] is a binary32 value.  Clamping keeps it
    one, both scalings of [floatToPcm16] are then binary64 values, and the
    quotient of [pcm16ToFloat] is a binary32 value: none of these operations
    rounds, so the rational result is the floating-point result. *)

Lemma binary32_scaled_exact (q : Q) :
  binary32 q -> binary64 (q * 32768) /\ binary64 (q * 32767).
Proof.
  intros (m & e & Hm & He & Hq). split.
  - exists m, (e + 15). repeat split; try lia.
    rewrite Hq, Qpower_plus by discriminate.
    change (2 ^ 15)%Q with 32768%Q. ring.
  - exists (m * 32767), e. repeat split; try lia.
    rewrite Hq, inject_Z_mult. change (inject_Z 32767) with 32767%Q. ring.
Qed.

Lemma binary32_clamp (q : Q) : binary32 q -> binary32 (Qclamp q).
Proof.
  intros Hq. unfold Qclamp.
  destruct (Qle_bool 1 q); [|destruct (Qle_bool q (-1)); [|exact Hq]].
  - exists 1, 0. repeat split; try lia; try reflexivity.
  - exists (-1), 0. repeat split; try lia; try reflexivity.
Qed.

Lemma pcm16_sample_binary32 (k : Z) :
  -32768 <= k <= 32767 -> binary32 (inject_Z k / 32768).
Proof.
  intros Hk. exists k, (-15). repeat split; lia.
Qed.

(** ** Base64: what [btoa] writes, [atob] reads back *)

Example btoa_vectors :
  Base64.btoa [] = ""%string
  /\ Base64.btoa ["f"%byte] = "Zg=="%string
  /\ Base64.btoa ["f"%byte; "o"%byte] = "Zm8="%string
  /\ Base64.btoa ["f"%byte; "o"%byte; "o"%byte] = "Zm9v"%string
  /\ Base64.btoa ["f"%byte; "o"%byte; "o"%byte; "b"%byte] = "Zm9vYg=="%string
  /\ Base64.btoa [xfb; xff; xbf] = "+/+/"%string.
Proof. repeat split. Qed.

Example atob_vectors :
  Base64.atob "" = Some []
  /\ Base64.atob "Zg==" = Some ["f"%byte]
  /\ Base64.atob "Zg" = Some ["f"%byte]
  /\ Base64.atob " Zm 8= " = Some ["f"%byte; "o"%byte]
  /\ Base64.atob "Zm9vYg==" = Some ["f"%byte; "o"%byte; "o"%byte; "b"%byte]
  /\ Base64.atob "Zg=" = None
  /\ Base64.atob "Z" = None
  /\ Base64.atob "Zm9v*g==" = None
  /\ Base64.atob "undefined" = None.
Proof. repeat split. Qed.

Lemma list_triple_ind {A} (P : list A -> Prop) :
  P [] -> (forall a, P [a]) -> (forall a b, P [a; b]) ->
  (forall a b c l, P l -> P (a :: b :: c :: l)) ->
  forall l, P l.
Proof.
  intros H0 H1 H2 H3 l.
  enough (P l /\ (forall a, P (a :: l)) /\ forall a b, P (a :: b :: l)) by tauto.
  induction l as [|c l (IH0 & IH1 & IH2)]; repeat split; auto.
Qed.

Lemma digit_spec (n : Z) :
  0 <= n < 64 ->
  Base64.value (Base64.digit n) = Some n
  /\ Base64.is_ascii_whitespace (Base64.digit n) = false
  /\ Ascii.eqb (Base64.digit n) "=" = false.
Proof.
  intros Hn. rewrite <- (Z2Nat.id n) by lia.
  assert (Hk : (Z.to_nat n < 64)%nat) by lia.
  revert Hk. generalize (Z.to_nat n) as k. intros k Hk.
  do 64 (destruct k as [|k]; [repeat split|]). lia.
Qed.

Lemma sextets_range (bytes : list byte) :
  Forall (fun n => 0 <= n < 64) (sextets bytes).
Proof.
  induction bytes as [| a | a b | a b c l IH] using list_triple_ind;
    cbn [sextets]; repeat constructor; try exact IH;
    repeat match goal with
           | x : byte |- _ => pose proof (byte_to_Z_range x); generalize dependent x
           end; intros;
    try (apply Z.mod_pos_bound; lia);
    try (apply Z.div_pos; lia);
    try (apply Z.div_lt_upper_bound; lia).
Qed.

Lemma btoa_chars (bytes : list byte) :
  list_ascii_of_string (Base64.btoa bytes)
  = map Base64.digit (sextets bytes) ++ replicate (padding bytes) "="%char.
Proof.
  induction bytes as [| a | a b | a b c l IH] using list_triple_ind;
    try reflexivity.
  cbn [Base64.btoa sextets padding list_ascii_of_string map app].
  rewrite IH. reflexivity.
Qed.

Lemma length_sextets (bytes : list byte) :
  ((length (sextets bytes) + padding bytes) mod 4 = 0)%nat.
Proof.
  induction bytes as [| a | a b | a b c l IH] using list_triple_ind;
    try reflexivity.
  cbn [sextets padding length].
  replace (S (S (S (S (length (sextets l))))) + padding l)%nat
    with (length (sextets l) + padding l + 1 * 4)%nat by lia.
  rewrite Nat.Div0.mod_add. exact IH.
Qed.

Lemma padding_le (bytes : list byte) : (padding bytes <= 2)%nat.
Proof.
  induction bytes as [| a | a b | a b c l IH] using list_triple_ind;
    cbn [padding]; lia.
Qed.

Lemma length_sextets_mod (bytes : list byte) :
  (length (sextets bytes) mod 4 =? 1)%nat = false.
Proof.
  induction bytes as [| a | a b | a b c l IH] using list_triple_ind;
    try reflexivity.
  cbn [sextets length].
  replace (S (S (S (S (length (sextets l))))))
    with (length (sextets l) + 1 * 4)%nat by lia.
  rewrite Nat.Div0.mod_add. exact IH.
Qed.

Lemma Z_to_byte_eq (z : Z) (b : byte) : z mod 256 = byte_to_Z b -> Z_to_byte z = b.
Proof.
  intros E. rewrite <- (Z_to_byte_to_Z b). unfold Z_to_byte. rewrite E.
  rewrite (Z.mod_small (byte_to_Z b)) by apply byte_to_Z_range. reflexivity.
Qed.

Lemma groups_sextets (bytes : list byte) :
  Base64.groups (sextets bytes) = bytes.
Proof.
  induction bytes as [| a | a b | a b c l IH] using list_triple_ind.
  - reflexivity.
  - cbn [sextets Base64.groups]. f_equal.
    pose proof (byte_to_Z_range a). apply Z_to_byte_eq.
    generalize dependent (byte_to_Z a). intros. Z.div_mod_to_equations. lia.
  - cbn [sextets Base64.groups].
    pose proof (byte_to_Z_range a). pose proof (byte_to_Z_range b).
    f_equal; [|f_equal]; apply Z_to_byte_eq;
      generalize dependent (byte_to_Z a); generalize dependent (byte_to_Z b);
      intros; Z.div_mod_to_equations; lia.
  - cbn [sextets Base64.groups]. rewrite IH.
    pose proof (byte_to_Z_range a). pose proof (byte_to_Z_range b).
    pose proof (byte_to_Z_range c).
    f_equal; [|f_equal; [|f_equal]]; apply Z_to_byte_eq;
      generalize dependent (byte_to_Z a); generalize dependent (byte_to_Z b);
      generalize dependent (byte_to_Z c);
      intros; Z.div_mod_to_equations; lia.
Qed.

Lemma mapM_value_digit (s : list Z) :
  Forall (fun n => 0 <= n < 64) s ->
  mapM Base64.value (map Base64.digit s) = Some s.
Proof.
  induction 1 as [|n l Hn _ IH]; [reflexivity|].
  cbn [map mapM]. rewrite (proj1 (digit_spec n Hn)), IH. reflexivity.
Qed.

Lemma filter_Forall {A} (P : A -> Prop) `{!forall x, Decision (P x)} (l : list A) :
  Forall P l -> filter P l = l.
Proof.
  induction 1 as [|x l Hx _ IH]; [reflexivity|].
  rewrite filter_cons_True by exact Hx. rewrite IH. reflexivity.
Qed.

Lemma filter_digits (s : list Z) (k : nat) :
  Forall (fun n => 0 <= n < 64) s ->
  filter (fun c => Base64.is_ascii_whitespace c = false)
         (map Base64.digit s ++ replicate k "="%char)
  = map Base64.digit s ++ replicate k "="%char.
Proof.
  intros Hs. apply filter_Forall, Forall_app. split.
  - apply Forall_map. eapply Forall_impl; [exact Hs|].
    intros n Hn. apply (digit_spec n Hn).
  - apply Forall_replicate. reflexivity.
Qed.

Lemma drop_equals_digits (s : list Z) :
  Forall (fun n => 0 <= n < 64) s ->
  Base64.drop_equals (rev (map Base64.digit s)) = None.
Proof.
  intros Hs. rewrite <- map_rev.
  apply Forall_rev in Hs. destruct Hs as [|n l Hn _]; [reflexivity|].
  cbn [map Base64.drop_equals].
  destruct (digit_spec n Hn) as (_ & _ & ->). reflexivity.
Qed.

Lemma strip_padding_digits (s : list Z) (k : nat) :
  Forall (fun n => 0 <= n < 64) s ->
  (k <= 2)%nat ->
  ((length s + k) mod 4 = 0)%nat ->
  Base64.strip_padding (map Base64.digit s ++ replicate k "="%char)
  = map Base64.digit s.
Proof.
  intros Hs Hk Hlen. unfold Base64.strip_padding.
  rewrite length_app, length_map, length_replicate, Hlen. cbn [Nat.eqb].
  rewrite rev_app_distr.
  pose proof (drop_equals_digits s Hs) as Hd.
  destruct k as [|[|[|k]]]; [| | |lia]; cbn [replicate rev app Base64.drop_equals Ascii.eqb Bool.eqb].
  - rewrite app_nil_r, Hd. reflexivity.
  - rewrite Hd, rev_involutive. reflexivity.
  - rewrite rev_involutive. reflexivity.
Qed.

(** [atob] undoes [btoa]: the receiver of a frame reads the bytes written. *)
Lemma atob_btoa (bytes : list byte) :
  Base64.atob (Base64.btoa bytes) = Some bytes.
Proof.
  unfold Base64.atob. rewrite btoa_chars.
  pose proof (sextets_range bytes) as Hs.
  rewrite filter_digits by exact Hs.
  rewrite strip_padding_digits
    by first [exact Hs | apply padding_le | apply length_sextets].
  rewrite length_map, length_sextets_mod, mapM_value_digit by exact Hs.
  cbn [fmap option_fmap option_map]. rewrite groups_sextets. reflexivity.
Qed.

(** A frame as the media branch of the receiver reads it gives the samples
    of [decode] on the bytes written. *)
Lemma frame_round_trip (input : list number) :
  (frame ← encode input; Base64.atob frame ≫= pcm16ToFloat)
  = (bytes ← encode_bytes input; decode bytes).
Proof.
  unfold encode. rewrite encode_bytes_flat.
  cbn [fmap option_fmap option_map mbind option_bind].
  rewrite atob_btoa. reflexivity.
Qed.

(** ** The codec against its specification *)

Lemma int16_le_take (buffer : list byte) :
  int16_le (take (length buffer / 2 * 2) buffer) = int16_le buffer.
Proof.
  induction buffer as [| x | x y l IH] using list_pair_ind; try reflexivity.
  change (length (x :: y :: l)) with (1 * 2 + length l)%nat.
  rewrite Nat.div_add_l by lia.
  change ((1 + length l / 2) * 2)%nat with (S (S (length l / 2 * 2))).
  cbn [take int16_le]. rewrite IH. reflexivity.
Qed.

(** C5. [pcm16ToFloat] never fails; its result is the little-endian signed
    16-bit values of the buffer, each divided by 32768; it has
    [floor(byteLength / 2)] elements, and a trailing odd byte is ignored:
    the result is that of the buffer cut to its whole samples. *)
Theorem C5_decode_truncates_partial_sample (buffer : list byte) :
  pcm16ToFloat buffer
    = Some (map (fun int16 => Finite (inject_Z int16 / 32768)) (int16_le buffer))
  /\ length <$> pcm16ToFloat buffer = Some (length buffer / 2)%nat
  /\ pcm16ToFloat buffer = pcm16ToFloat (take (length buffer / 2 * 2) buffer).
Proof.
  rewrite !pcm16ToFloat_samples, int16_le_take. repeat split.
  cbn [fmap option_fmap option_map]. rewrite length_map, length_int16_le.
  reflexivity.
Qed.

(** The trailing byte of a buffer of odd length plays no part. *)
Lemma pcm16ToFloat_odd (buffer : list byte) (x : byte) :
  Nat.even (length buffer) = true ->
  pcm16ToFloat (buffer ++ [x]) = pcm16ToFloat buffer.
Proof.
  intros He. rewrite !pcm16ToFloat_samples, int16_le_odd by exact He.
  reflexivity.
Qed.




Lemma requantized_range (k : Z) :
  -32768 <= k <= 32767 -> -32768 <= requantized k <= 32767.
Proof. unfold requantized. destruct (Z.ltb_spec 0 k); lia. Qed.

Lemma requantized_fixed (l : list Z) :
  map requantized l = l <-> Forall (fun k => k <= 0) l.
Proof.
  induction l as [|k l IH]; cbn [map].
  - split; [constructor | reflexivity].
  - split.
    + intros E. injection E as Ek El. constructor; [|apply IH, El].
      unfold requantized in Ek. destruct (Z.ltb_spec 0 k); lia.
    + intros H. apply Forall_cons in H as [Hk Hl]. f_equal; [|apply IH, Hl].
      unfold requantized. destruct (Z.ltb_spec 0 k); lia.
Qed.

(** C2, as stated, fails: the sample 1 decodes to 2^-15, which scales to
    32767/32768 and is stored as 0. *)
Lemma C2_counterexample :
  Nat.even (length [x01; x00]) = true
  /\ (samples ← decode [x01; x00]; encode_bytes samples) = Some [x00; x00]
  /\ [x00; x00] <> [x01; x00].
Proof. repeat split. discriminate. Qed.

(** C2, amended. Encoding the decoding of any buffer never fails and gives
    back each whole 16-bit sample [k] as [k] when [k <= 0] and as [k - 1]
    when [k > 0]; for a buffer of even length the result is the buffer
    itself exactly when none of its samples is positive. *)
Theorem C2_encode_decode_requantizes (b : list byte) :
  (samples ← decode b; encode_bytes samples)
    = Some (flat_map int16_bytes (map requantized (int16_le b)))
  /\ (Nat.even (length b) = true ->
      ((samples ← decode b; encode_bytes samples) = Some b
       <-> Forall (fun k => k <= 0) (int16_le b))).
Proof.
  split; [apply encode_decode_bytes|].
  intros He. rewrite encode_decode_bytes, <- requantized_fixed. split.
  - intros E. injection E as E. apply (f_equal int16_le) in E.
    rewrite int16_le_of_bytes in E; [exact E|].
    apply Forall_map. eapply Forall_impl; [apply int16_le_range|].
    intros k. apply requantized_range.
  - intros E. rewrite E, int16_le_bytes by exact He. reflexivity.
Qed.

Lemma C2_encode_decode_witness :
  (samples ← decode [xff; xff; x00; x80]; encode_bytes samples)
    = Some [xff; xff; x00; x80].
Proof.
  apply (C2_encode_decode_requantizes [xff; xff; x00; x80]).
  - reflexivity.
  - repeat constructor; discriminate.
Defined.




(** * Properties of the session *)

Lemma strict_eq_true (v : jsval) (s : string) : strict_eq v s = true <-> v = Str s.
Proof.
  destruct v as [|t|t]; cbn [strict_eq]; try (split; discriminate).
  rewrite String.eqb_eq. split; congruence.
Qed.

Lemma render_queue_stop (log : list port_message) :
  render_queue (log ++ [PortStop]) = [].
Proof. unfold render_queue. rewrite foldl_app. reflexivity. Qed.

(** C8. On a stop message the handler posts a stop to the worklet port,
    which clears whatever playback is queued or in flight, and sets the
    agent-speaking flag false; the microphone graph, the sockets and what
    was sent on them are left as they were. *)
Theorem C8_stop_clears_playback (c : Content) (isTalking0 : bool)
    (speaker data : jsval) :
  let c' := onmessage isTalking0
              (Some {| event := Str "stop"; speaker := speaker; data := data |}) c in
  pending_playback c' = []
  /\ isTalking c' = false
  /\ capture_state c' = capture_state c.
Proof.
  destruct c as [m t e acr awr ws cx wl sk tm pr mi ed mo rn].
  cbn [onmessage event strict_eq String.eqb Ascii.eqb Bool.eqb].
  unfold postMessage, pending_playback, capture_state.
  destruct awr as [n|]; cbn; [|repeat split].
  rewrite list_lookup_alter_eq.
  destruct (wl !! n) as [w|]; cbn; [|repeat split].
  rewrite render_queue_stop. repeat split.
Qed.

(** ** The transcript *)

Lemma messages_onmessage_text (isTalking0 : bool) (c : Content) (r : jsval * jsval) :
  messages (onmessage isTalking0 (Some (text_chunk r.1 r.2)) c)
  = messages c ++ [entry r].
Proof. destruct c. reflexivity. Qed.

Lemma messages_receive_texts (isTalking0 : bool) (received : list (jsval * jsval)) :
  forall c, messages (receive_texts isTalking0 c received)
            = messages c ++ map entry received.
Proof.
  unfold receive_texts.
  induction received as [|r l IH]; intros c; cbn [foldl map].
  - rewrite app_nil_r. reflexivity.
  - rewrite IH, messages_onmessage_text, <- app_assoc. reflexivity.
Qed.

(** Which fields a handler leaves alone is read off by unfolding it. *)
Ltac unfold_handlers :=
  unfold onClick, commit, initAudio, initAudioWorklet, connectionTimeout,
    onopen, onerror, onclose, initMicrophone, onaudioprocess,
    cleanup, connectWebSocket, close_current, current_socket, clearTimeout,
    postMessage in *.

Ltac frame := unfold_handlers; repeat case_match; try reflexivity.

Lemma messages_onmessage (b : bool) (parsed : option chunk) (c : Content) :
  messages c `prefix_of` messages (onmessage b parsed c).
Proof.
  unfold onmessage. frame. apply prefix_app_r. reflexivity.
Qed.

Lemma messages_cleanup (c : Content) : messages (cleanup c) = messages c.
Proof. frame. Qed.

Lemma messages_commit (c : Content) : messages (commit c) = messages c.
Proof.
  unfold commit. destruct (bool_decide (isEngaged c = effect_dep c)); [reflexivity|].
  destruct (mounted c);
    repeat match goal with
           | |- context [if ?b then _ else _] => destruct b
           end; cbn [messages set_effect set_runs];
    rewrite ?messages_cleanup; reflexivity.
Qed.

Lemma messages_initAudio (g : nat) (b : bool) (outcome : init_outcome) (c : Content) :
  messages (initAudio g b outcome c) = messages c.
Proof. destruct outcome; frame. Qed.

Lemma messages_step (c : Content) (i : input) :
  messages c `prefix_of` messages (step c i).
Proof.
  destruct i; cbn [step].
  - unfold onClick. destruct (isEngaged c); reflexivity.
  - rewrite messages_commit. reflexivity.
  - repeat case_match; try reflexivity. rewrite messages_initAudio. reflexivity.
  - frame.
  - frame.
  - repeat case_match; try reflexivity. apply messages_onmessage.
  - frame.
  - frame.
  - frame.
  - frame.
  - frame.
Qed.

Lemma messages_run (trace : list input) :
  forall c, messages c `prefix_of` messages (run c trace).
Proof.
  unfold run. induction trace as [|i l IH]; intros c; cbn [foldl].
  - reflexivity.
  - etransitivity; [apply messages_step | apply IH].
Qed.

(** C9. Text messages are appended to the transcript in the order received,
    [isMine] being true exactly for the speaker ["user"]; no input ever
    changes or removes an entry already there: the transcript before is a
    prefix of the transcript after.  Hi from the user then Hello from the
    agent give exactly these two entries, [isMine] true then false. *)
Theorem C9_transcript_appends (c : Content) (isTalking0 : bool)
    (received : list (jsval * jsval)) (trace : list input) :
  messages (receive_texts isTalking0 c received) = messages c ++ map entry received
  /\ (forall r : jsval * jsval, isMine (entry r) = true <-> r.1 = Str "user")
  /\ messages c `prefix_of` messages (run c trace)
  /\ messages (run engaged_open
                 [WsMessage 0 (Some (text_chunk (Str "user") (Str "Hi")));
                  WsMessage 0 (Some (text_chunk (Str "agent") (Str "Hello")))])
     = [{| isMine := true; text := Str "Hi" |};
        {| isMine := false; text := Str "Hello" |}].
Proof.
  split; [apply messages_receive_texts|].
  split; [intros r; apply strict_eq_true|].
  split; [apply messages_run | reflexivity].
Qed.

(** ** Media messages without a whole sample *)

(** C10. A media message whose payload decodes to fewer than two bytes
    holds no sample: the handler returns the state as it found it, so that
    nothing is posted to the worklet port and [isTalking] keeps its value. *)
Theorem C10_empty_media_ignored (c : Content) (isTalking0 : bool)
    (ch : chunk) (bytes : list byte) :
  event ch = Str "media" ->
  Base64.atob (ToString (data ch)) = Some bytes ->
  (length bytes < 2)%nat ->
  onmessage isTalking0 (Some ch) c = c
  /\ worklets (onmessage isTalking0 (Some ch) c) = worklets c
  /\ isTalking (onmessage isTalking0 (Some ch) c) = isTalking c.
Proof.
  intros Hev Hatob Hlen.
  assert (E : onmessage isTalking0 (Some ch) c = c); [|rewrite E; auto].
  unfold onmessage. rewrite Hev, Hatob.
  cbn [strict_eq String.eqb Ascii.eqb Bool.eqb mbind option_bind].
  rewrite pcm16ToFloat_samples, length_map, length_int16_le.
  rewrite Nat.div_small by lia. reflexivity.
Qed.

Lemma C10_empty_media_witness :
  onmessage false (Some (media_chunk (Str "AA=="))) engaged_open = engaged_open
  /\ worklets (onmessage false (Some (media_chunk (Str "AA=="))) engaged_open)
     = worklets engaged_open
  /\ isTalking (onmessage false (Some (media_chunk (Str "AA=="))) engaged_open)
     = isTalking engaged_open.
Proof.
  apply (C10_empty_media_ignored engaged_open false
           (media_chunk (Str "AA==")) [x00]).
  - reflexivity.
  - reflexivity.
  - cbn [length]. lia.
Defined.

(** ** Blocks captured while the channel is not open *)

Lemma onaudioprocess_not_open (c : Content) (samples : list number) :
  readyState <$> current_socket c <> Some OPEN ->
  onaudioprocess samples c = c.
Proof.
  intros Hws. unfold onaudioprocess.
  destruct (wsRef c) as [i|]; [|reflexivity].
  destruct (current_socket c) as [ws|]; [|reflexivity].
  destruct (decide (readyState ws <> OPEN)) as [|Hopen]; [reflexivity|].
  exfalso. apply Hws. cbn. f_equal.
  destruct (readyState ws); try reflexivity; exfalso; apply Hopen; discriminate.
Qed.

(** C6. A block captured while the socket of [wsRef] is not open leaves
    the state as it was: nothing is sent, nothing is kept.  Whatever happens
    afterwards, a reopening included, happens as if the block had never been
    captured; in particular no socket ever carries a frame for it. *)
Theorem C6_block_dropped_when_not_open (c : Content) (p : nat)
    (samples : list number) (trace : list input) :
  readyState <$> current_socket c <> Some OPEN ->
  step c (AudioProcess p samples) = c
  /\ sockets (step c (AudioProcess p samples)) = sockets c
  /\ run c (AudioProcess p samples :: trace) = run c trace.
Proof.
  intros Hws.
  assert (E : step c (AudioProcess p samples) = c).
  { cbn [step]. repeat case_match; try reflexivity.
    apply onaudioprocess_not_open, Hws. }
  unfold run. cbn [foldl]. rewrite E. auto.
Qed.

Lemma C6_block_dropped_witness :
  step engaged_dropped (AudioProcess 0 [Finite (1 # 2)]) = engaged_dropped
  /\ sockets (step engaged_dropped (AudioProcess 0 [Finite (1 # 2)]))
     = sockets engaged_dropped
  /\ run engaged_dropped
       (AudioProcess 0 [Finite (1 # 2)] :: reengage ++ [AudioProcess 1 [Finite (-1 # 4)]])
     = run engaged_dropped (reengage ++ [AudioProcess 1 [Finite (-1 # 4)]]).
Proof.
  apply (C6_block_dropped_when_not_open engaged_dropped 0 [Finite (1 # 2)]
           (reengage ++ [AudioProcess 1 [Finite (-1 # 4)]])).
  vm_compute. discriminate.
Defined.

(** After the reopening only the later block is on the wire. *)
Example reopened_sends_later_block_only :
  sent <$> sockets (run engaged_dropped
                      (AudioProcess 0 [Finite (1 # 2)]
                         :: reengage ++ [AudioProcess 1 [Finite (-1 # 4)]])) !! 1%nat
  = (fun frame => [frame]) <$> encode [Finite (-1 # 4)].
Proof. reflexivity. Qed.

(** ** Closing *)

Lemma step_WsClose (c : Content) (id : nat) (code : Z) (ws : WebSocket) :
  sockets c !! id = Some ws -> readyState ws <> CLOSED ->
  step c (WsClose id code)
  = onclose id code (set_sockets (alter (set_readyState CLOSED) id) c).
Proof.
  intros Hws Hrs. cbn [step]. rewrite Hws.
  destruct (decide (readyState ws = CLOSED)); [contradiction | reflexivity].
Qed.

(** C1, as stated, fails: the open socket of an engaged session closes with
    code 1006, and no socket is created; the timer list is empty, so that
    none is scheduled either. *)
Lemma C1_counterexample :
  isEngaged engaged_open = true
  /\ readyState <$> current_socket engaged_open = Some OPEN
  /\ 1006 <> normal_closure
  /\ attempts (step engaged_open (WsClose 0 1006)) = attempts engaged_open
  /\ attempts (step engaged_open (WsClose 0 1006)) <> S (attempts engaged_open)
  /\ timers (step engaged_open (WsClose 0 1006)) = [].
Proof. repeat split; discriminate. Qed.

(** C1, amended. When a socket that is not yet closed closes, its
    connection timer is cancelled and [isTalking] set false, and no connect
    attempt begins, whatever the code: the sockets are the same ones and
    [wsRef] still names the same one.  With a code other than 1000
    engagement is left as it was; with 1000 it is set false. *)
Theorem C1_close_never_reconnects (c : Content) (id : nat) (code : Z)
    (ws : WebSocket) :
  sockets c !! id = Some ws ->
  readyState ws <> CLOSED ->
  let c' := step c (WsClose id code) in
  attempts c' = attempts c
  /\ wsRef c' = wsRef c
  /\ readyState <$> sockets c' !! id = Some CLOSED
  /\ (id ∉ timers c')
  /\ isTalking c' = false
  /\ (code <> normal_closure -> isEngaged c' = isEngaged c)
  /\ (code = normal_closure -> isEngaged c' = false).
Proof.
  intros Hws Hrs c'. subst c'. rewrite (step_WsClose c id code ws Hws Hrs).
  unfold onclose, attempts.
  destruct (decide (code <> normal_closure)) as [Hc|Hc]; cbn;
    rewrite length_alter, list_lookup_alter_eq, Hws;
    (repeat split; try reflexivity; try tauto;
     try (rewrite list_elem_of_filter; tauto)).
Qed.

Lemma C1_close_witness :
  let c' := step engaged_open (WsClose 0 1006) in
  attempts c' = attempts engaged_open
  /\ wsRef c' = wsRef engaged_open
  /\ readyState <$> sockets c' !! 0%nat = Some CLOSED
  /\ (0%nat ∉ timers c')
  /\ isTalking c' = false
  /\ (1006 <> normal_closure -> isEngaged c' = isEngaged engaged_open)
  /\ (1006 = normal_closure -> isEngaged c' = false).
Proof.
  apply (C1_close_never_reconnects engaged_open 0 1006
           {| readyState := OPEN; sent := []; closure_isTalking := false |}).
  - reflexivity.
  - discriminate.
Defined.

(** ** The connection timer *)

Lemma connectWebSocket_starts_timer (isTalking0 : bool) (c : Content) :
  let c' := connectWebSocket isTalking0 c in
  attempts c' = S (attempts c)
  /\ wsRef c' = Some (attempts c)
  /\ timers c' = timers c ++ [attempts c]
  /\ readyState <$> sockets c' !! attempts c = Some CONNECTING
  /\ isEngaged c' = isEngaged c.
Proof.
  unfold connectWebSocket, attempts. cbn.
  rewrite length_app, Nat.add_comm, lookup_app_r, Nat.sub_diag by lia.
  repeat split.
Qed.

(** When the timer of a socket fires while the socket of [wsRef] is not
    open, that socket is closed and a new attempt begins with a timer of its
    own.  Engagement is neither consulted nor changed. *)
Lemma timeout_retries (c : Content) (id : nat) (ws cur : WebSocket) :
  sockets c !! id = Some ws ->
  id ∈ timers c ->
  current_socket c = Some cur ->
  readyState cur <> OPEN ->
  let c' := step c (Timeout id) in
  attempts c' = S (attempts c)
  /\ wsRef c' = Some (attempts c)
  /\ attempts c ∈ timers c'
  /\ readyState <$> sockets c' !! attempts c = Some CONNECTING
  /\ isEngaged c' = isEngaged c.
Proof.
  intros Hws Hin Hcur Hrs. cbn [step]. rewrite Hws, bool_decide_true by exact Hin.
  unfold connectionTimeout.
  replace (current_socket (clearTimeout id c)) with (Some cur) by (rewrite <- Hcur; reflexivity).
  rewrite decide_True by exact Hrs.
  pose proof (connectWebSocket_starts_timer (closure_isTalking ws)
                (close_current (clearTimeout id c))) as H.
  cbv zeta in *.
  assert (E : attempts (close_current (clearTimeout id c)) = attempts c).
  { unfold close_current, attempts. cbn. destruct (wsRef c); cbn; [apply length_alter | reflexivity]. }
  rewrite E in H. destruct H as (H1 & H2 & H3 & H4 & H5).
  repeat split; try assumption.
  - rewrite H3. apply elem_of_app. right. constructor.
  - rewrite H5. unfold close_current. cbn. destruct (wsRef c); reflexivity.
Qed.

Lemma retrying_timeout (c : Content) :
  retrying c ->
  retrying (step c (Timeout (attempts c - 1)))
  /\ attempts (step c (Timeout (attempts c - 1))) = S (attempts c)
  /\ isEngaged (step c (Timeout (attempts c - 1))) = isEngaged c.
Proof.
  intros (id & Hn & Href & Hin & Hrs).
  replace (attempts c - 1)%nat with id by lia.
  destruct (sockets c !! id) as [ws|] eqn:Hws; [|discriminate].
  injection Hrs as Hrs.
  destruct (timeout_retries c id ws ws Hws Hin) as (H1 & H2 & H3 & H4 & H5).
  - unfold current_socket. rewrite Href. exact Hws.
  - rewrite Hrs. discriminate.
  - repeat split; try assumption.
    exists (attempts c). repeat split; assumption.
Qed.

(** The retry has no bound: [n] timeouts in a row, each of the latest
    socket, begin [n] attempts. *)
Lemma retry_unbounded (n : nat) :
  forall c, retrying c ->
    attempts (run c (map Timeout (seq (attempts c - 1) n))) = (attempts c + n)%nat.
Proof.
  unfold run. induction n as [|n IH]; intros c Hc; cbn [seq map foldl].
  - lia.
  - destruct (retrying_timeout c Hc) as (Hr & Ha & _).
    specialize (IH _ Hr). rewrite Ha in IH.
    replace (S (attempts c) - 1)%nat with (S (attempts c - 1)) in IH
      by (destruct Hc as (id & Hn & _); lia).
    rewrite IH. lia.
Qed.

(** [initAudio] has the guard the timer callback lacks: once the effect run
    is cleaned up, it does not connect. *)
Lemma initAudio_unmounted (g : nat) (isTalking0 : bool) (outcome : init_outcome)
    (c : Content) :
  mounted c <> Some g ->
  attempts (initAudio g isTalking0 outcome c) = attempts c
  /\ timers (initAudio g isTalking0 outcome c) = timers c.
Proof.
  intros Hm. unfold initAudio, initAudioWorklet, attempts.
  destruct outcome, (audioContextRef c); cbn;
    rewrite bool_decide_false by exact Hm; repeat split.
Qed.

(** C7. The timer callback looks at [wsRef] only.  The user disengages
    while the first socket is connecting: [cleanup] closes the socket, which
    is then closing, but the timer stays pending until the close event is
    delivered.  When the timer fires first, a second attempt begins, with a
    timer of its own, though [isEngaged] is false. *)
Theorem C7_timer_outlives_disengagement :
  isEngaged disengaged_while_connecting = false
  /\ attempts disengaged_while_connecting = 1%nat
  /\ readyState <$> current_socket disengaged_while_connecting = Some CLOSING
  /\ timers disengaged_while_connecting = [0%nat]
  /\ let c' := step disengaged_while_connecting (Timeout 0) in
     isEngaged c' = false
     /\ attempts c' = 2%nat
     /\ readyState <$> current_socket c' = Some CONNECTING
     /\ timers c' = [1%nat]
     /\ retrying c'.
Proof.
  repeat split. exists 1%nat. repeat split. repeat constructor.
Qed.

(** ** After an abnormal close nothing reconnects *)

Lemma cleanup_frame (c : Content) :
  timers (cleanup c) = timers c /\ runs (cleanup c) = runs c
  /\ isEngaged (cleanup c) = isEngaged c /\ attempts (cleanup c) = attempts c.
Proof.
  unfold attempts. repeat split; frame; cbn; rewrite ?length_alter; reflexivity.
Qed.

Lemma onmessage_frame (b : bool) (parsed : option chunk) (c : Content) :
  timers (onmessage b parsed c) = timers c /\ runs (onmessage b parsed c) = runs c
  /\ isEngaged (onmessage b parsed c) = isEngaged c
  /\ effect_dep (onmessage b parsed c) = effect_dep c
  /\ sockets (onmessage b parsed c) = sockets c.
Proof. unfold onmessage. repeat split; frame. Qed.

Lemma onaudioprocess_frame (samples : list number) (c : Content) :
  timers (onaudioprocess samples c) = timers c
  /\ runs (onaudioprocess samples c) = runs c
  /\ isEngaged (onaudioprocess samples c) = isEngaged c
  /\ effect_dep (onaudioprocess samples c) = effect_dep c
  /\ attempts (onaudioprocess samples c) = attempts c.
Proof.
  unfold attempts. repeat split; frame; cbn; rewrite ?length_alter; reflexivity.
Qed.

Lemma quiet_step (c : Content) (i : input) :
  quiet c -> i <> Click ->
  quiet (step c i) /\ attempts (step c i) = attempts c.
Proof.
  intros (Htm & Hrn & Hdep) Hi. unfold quiet, attempts.
  destruct i; cbn [step]; try contradiction.
  - (* Commit *)
    unfold commit. case_bool_decide as Hd; [intuition|].
    assert (He : isEngaged c = false) by intuition.
    destruct (cleanup_frame c) as (T1 & R1 & E1 & A1).
    set (c1 := match mounted c with Some _ => cleanup c | None => c end).
    assert (F1 : timers c1 = timers c /\ runs c1 = runs c
                 /\ isEngaged c1 = isEngaged c /\ attempts c1 = attempts c)
      by (subst c1; destruct (mounted c); intuition).
    destruct F1 as (T2 & R2 & E2 & A2).
    destruct (cleanup_frame c1) as (T3 & R3 & E3 & A3).
    rewrite E2, He. cbn. unfold attempts in *.
    rewrite T3, T2, R3, R2, E3, E2, A3, A2. intuition.
  - (* AudioWorkletSettled *)
    destruct (runs c !! g) as [r|] eqn:Hr; [|intuition].
    rewrite (proj1 (Forall_lookup _ _) Hrn _ _ Hr). intuition.
  - (* Timeout *)
    destruct (sockets c !! id); [|intuition].
    rewrite Htm, bool_decide_false by apply not_elem_of_nil.
    rewrite Htm. intuition.
  - (* WsOpen *)
    frame; cbn; rewrite ?Htm, ?length_alter; intuition.
  - (* WsMessage *)
    destruct (sockets c !! id) as [ws|]; [|intuition].
    destruct (decide (readyState ws = OPEN)); [|intuition].
    destruct (onmessage_frame (closure_isTalking ws) parsed c) as (T & R & E & D & S).
    rewrite T, R, E, D, S. intuition.
  - (* WsError *)
    frame; cbn; rewrite ?Htm; intuition.
  - (* WsClose *)
    frame; cbn; rewrite ?Htm, ?length_alter; intuition.
  - (* MicrophoneSettled *)
    frame; cbn; intuition.
  - (* AudioProcess *)
    destruct (processors c !! p) as [cx|]; [|intuition].
    destruct (contexts c !! cx) as [[|]|]; try solve [intuition].
    destruct (onaudioprocess_frame samples c) as (T & R & E & D & A).
    unfold attempts in A. rewrite T, R, E, D, A. intuition.
  - (* NeedData *)
    frame; cbn; intuition.
Qed.

(** Once nothing is scheduled, only the user starts a connect attempt. *)
Lemma quiet_run (trace : list input) :
  forall c, quiet c -> Forall (fun i => i <> Click) trace ->
            attempts (run c trace) = attempts c.
Proof.
  unfold run. induction trace as [|i l IH]; intros c Hq Hl; cbn [foldl].
  - reflexivity.
  - apply Forall_cons in Hl as [Hi Hl].
    destruct (quiet_step c i Hq Hi) as [Hq' Ha].
    rewrite (IH _ Hq' Hl). exact Ha.
Qed.

(** The engaged session whose socket closed abnormally is in that state:
    it stays engaged and no attempt follows, whatever the platform
    delivers. *)
Lemma dropped_session_never_reconnects (trace : list input) :
  Forall (fun i => i <> Click) trace ->
  isEngaged engaged_dropped = true
  /\ attempts (run engaged_dropped trace) = attempts engaged_open.
Proof.
  intros Hl. split; [reflexivity|].
  rewrite quiet_run; [reflexivity | | exact Hl].
  repeat split; [repeat constructor | left; reflexivity].
Qed.

(** ** Delivery *)

(** A message on an open socket runs [onmessage] with the [isTalking] of the
    socket's closure. *)
Lemma step_WsMessage (c : Content) (id : nat) (parsed : option chunk)
    (ws : WebSocket) :
  sockets c !! id = Some ws -> readyState ws = OPEN ->
  step c (WsMessage id parsed) = onmessage (closure_isTalking ws) parsed c.
Proof.
  intros Hws Hrs. cbn [step]. rewrite Hws.
  destruct (decide (readyState ws = OPEN)); [reflexivity | contradiction].
Qed.

(** A block captured on a running context runs [onaudioprocess]; with an open
    socket its frame is appended to what that socket has sent. *)
Lemma onaudioprocess_open (c : Content) (id : nat) (ws : WebSocket)
    (samples : list number) :
  wsRef c = Some id -> sockets c !! id = Some ws -> readyState ws = OPEN ->
  sent <$> sockets (onaudioprocess samples c) !! id
  = Some (sent ws ++ [Base64.btoa (flat_map int16_bytes (floatToPcm16 samples))]).
Proof.
  intros Href Hws Hrs. unfold onaudioprocess, current_socket.
  rewrite Href. cbn [mbind option_bind]. rewrite Hws.
  destruct (decide (readyState ws <> OPEN)); [contradiction|].
  unfold encode, encode_bytes. rewrite pcm16_bytes_flat.
  cbn [fmap option_fmap option_map sockets set_sockets].
  rewrite list_lookup_alter_eq, Hws. reflexivity.
Qed.

(** * Further properties of the codec *)

(** X1. The loop of [onaudioprocess] that writes an [Int16Array] into the
    frame buffer never leaves the buffer: it gives two bytes per sample,
    and [pcm16ToFloat] reads each sample back, divided by 32768. *)
Theorem X1_frame_buffer_round_trip (pcm16 : list Z) :
  Forall (fun v => -32768 <= v <= 32767) pcm16 ->
  length <$> pcm16_bytes pcm16 = Some (length pcm16 * 2)%nat
  /\ (bytes ← pcm16_bytes pcm16; pcm16ToFloat bytes)
     = Some (map (fun v => Finite (inject_Z v / 32768)) pcm16).
Proof.
  intros Hr. rewrite pcm16_bytes_flat. cbn [fmap option_fmap option_map mbind option_bind].
  rewrite pcm16ToFloat_samples, int16_le_of_bytes by exact Hr.
  split; [|reflexivity]. f_equal.
  clear Hr. induction pcm16 as [|v l IH]; [reflexivity|].
  cbn [flat_map]. rewrite length_app, IH. cbn [int16_bytes length]. lia.
Qed.

Lemma X1_frame_buffer_witness :
  length <$> pcm16_bytes [1; -2; 32767; -32768] = Some 8%nat
  /\ (bytes ← pcm16_bytes [1; -2; 32767; -32768]; pcm16ToFloat bytes)
     = Some (map (fun v => Finite (inject_Z v / 32768)) [1; -2; 32767; -32768]).
Proof.
  apply (X1_frame_buffer_round_trip [1; -2; 32767; -32768]).
  repeat constructor; discriminate.
Defined.

(** X2. Decoding never fails, and every decoded sample is a finite number
    in [-1, 1) that a [Float32Array] holds exactly. *)
Theorem X2_decoded_samples_in_unit_range (buffer : list byte) :
  exists samples : list Q,
    pcm16ToFloat buffer = Some (map Finite samples)
    /\ Forall (fun q => (-1 <= q)%Q /\ (q < 1)%Q /\ binary32 q) samples.
Proof.
  exists (map (fun v => (inject_Z v / 32768)%Q) (int16_le buffer)).
  rewrite pcm16ToFloat_samples, map_map. split; [reflexivity|].
  apply Forall_map. eapply Forall_impl; [apply int16_le_range|].
  intros v Hv. cbn beta in *. split; [|split].
  - rewrite pcm_sample_frac. unfold Qle. simpl. lia.
  - rewrite pcm_sample_frac. unfold Qlt. simpl. lia.
  - apply pcm16_sample_binary32, Hv.
Qed.

Lemma truncate_mono (a b : Q) : (a <= b)%Q -> Conv.truncate a <= Conv.truncate b.
Proof.
  destruct a as [na da], b as [nb db]. unfold Qle, Conv.truncate. cbn [Qnum Qden].
  intros Hab.
  destruct (quot_bounds na da) as [Ha1 Ha2], (quot_bounds nb db) as [Hb1 Hb2].
  remember (Z.pos da) as A eqn:EA. remember (Z.pos db) as B eqn:EB.
  assert (HA : 0 < A) by lia. assert (HB : 0 < B) by lia. clear EA EB.
  remember (na ÷ A) as ta eqn:Eta. remember (nb ÷ B) as tb eqn:Etb.
  clear Eta Etb.
  destruct (Z.le_gt_cases 0 na) as [Hna|Hna].
  - assert (Hnb : 0 <= nb) by nia.
    specialize (Ha1 Hna). specialize (Hb1 Hnb).
    destruct (Z.le_gt_cases ta tb) as [|Hgt]; [assumption|exfalso].
    assert (H1 : (tb + 1) * A <= ta * A) by nia.
    assert (H2 : (tb + 1) * A * B <= na * B) by nia.
    assert (H3 : nb * A < (tb + 1) * B * A) by nia.
    nia.
  - specialize (Ha2 ltac:(lia)).
    assert (Hta : ta <= 0) by nia.
    destruct (Z.le_gt_cases 0 nb) as [Hnb|Hnb].
    + specialize (Hb1 Hnb). assert (0 <= tb) by nia. lia.
    + specialize (Hb2 ltac:(lia)).
      destruct (Z.le_gt_cases ta tb) as [|Hgt]; [assumption|exfalso].
      assert (H1 : tb * A <= (ta - 1) * A) by nia.
      assert (H2 : tb * A * B < na * B) by nia.
      assert (H3 : nb * A <= tb * B * A) by nia.
      nia.
Qed.

Lemma Qclamp_mono (p q : Q) : (p <= q)%Q -> (Qclamp p <= Qclamp q)%Q.
Proof.
  intros Hpq. unfold Qclamp.
  destruct (Qle_bool 1 p) eqn:P1.
  - apply Qle_bool_iff in P1.
    rewrite (proj2 (Qle_bool_iff 1 q) (Qle_trans _ _ _ P1 Hpq)). apply Qle_refl.
  - assert (Hp1 : (p < 1)%Q).
    { apply Qnot_le_lt. intros H. apply Qle_bool_iff in H. congruence. }
    destruct (Qle_bool p (-1)) eqn:P2.
    + destruct (Qle_bool 1 q); [discriminate|].
      destruct (Qle_bool q (-1)) eqn:Q2; [apply Qle_refl|].
      apply Qlt_le_weak, Qnot_le_lt. intros H. apply Qle_bool_iff in H. congruence.
    + assert (Hp2 : (-1 < p)%Q).
      { apply Qnot_le_lt. intros H. apply Qle_bool_iff in H. congruence. }
      destruct (Qle_bool 1 q); [apply Qlt_le_weak, Hp1|].
      destruct (Qle_bool q (-1)) eqn:Q2; [|exact Hpq].
      apply Qle_bool_iff in Q2. exfalso.
      apply (Qlt_irrefl p), (Qle_lt_trans _ _ _ (Qle_trans _ _ _ Hpq Q2) Hp2).
Qed.

Lemma Qscale_mono (s t : Q) : (s <= t)%Q -> (Qscale s <= Qscale t)%Q.
Proof.
  intros Hst. unfold Qscale.
  destruct (Qle_bool 0 s) eqn:S0.
  - apply Qle_bool_iff in S0.
    rewrite (proj2 (Qle_bool_iff 0 t) (Qle_trans _ _ _ S0 Hst)).
    apply Qmult_le_compat_r; [exact Hst | discriminate].
  - assert (Hs : (s <= 0)%Q).
    { apply Qlt_le_weak, Qnot_le_lt. intros H. apply Qle_bool_iff in H. congruence. }
    destruct (Qle_bool 0 t) eqn:T0.
    + apply Qle_bool_iff in T0.
      apply Qle_trans with (y := 0%Q).
      * rewrite <- (Qmult_0_l 32768). apply Qmult_le_compat_r; [exact Hs | discriminate].
      * rewrite <- (Qmult_0_l 32767). apply Qmult_le_compat_r; [exact T0 | discriminate].
    + apply Qmult_le_compat_r; [exact Hst | discriminate].
Qed.

(** X3. Quantization keeps the order of the samples: a sample that is not
    below another is not stored below it, so nothing wraps around at the
    ends of the 16-bit range. *)
Theorem X3_floatToPcm16_monotone (ps qs : list Q) :
  Forall2 Qle ps qs ->
  Forall2 Z.le (floatToPcm16 (map Finite ps)) (floatToPcm16 (map Finite qs)).
Proof.
  intros H. rewrite !floatToPcm16_quantize.
  induction H as [|p q ps qs Hpq _ IH]; cbn [map quantize]; constructor;
    [|exact IH].
  apply truncate_mono, Qscale_mono, Qclamp_mono, Hpq.
Qed.

Lemma X3_floatToPcm16_witness :
  Forall2 Z.le (floatToPcm16 (map Finite [-3 # 2; 1 # 3]))
               (floatToPcm16 (map Finite [-1 # 2; 7 # 8])).
Proof.
  apply (X3_floatToPcm16_monotone [-3 # 2; 1 # 3] [-1 # 2; 7 # 8]).
  repeat constructor; discriminate.
Defined.

(** * Further properties of the session *)

(** ** Inbound messages *)

(** X4. A media message that holds at least one whole sample posts exactly
    one block to the worklet port, after those already posted: the decoded
    samples of its payload.  [isTalking] becomes true, unless the handler's
    closure saw it true, in which case it is left alone. *)
Theorem X4_media_posts_one_block (c : Content) (isTalking0 : bool) (ch : chunk)
    (bytes : list byte) (n : nat) (w : AudioWorkletNode) :
  event ch = Str "media" ->
  Base64.atob (ToString (data ch)) = Some bytes ->
  (2 <= length bytes)%nat ->
  audioWorkletNodeRef c = Some n ->
  worklets c !! n = Some w ->
  let c' := onmessage isTalking0 (Some ch) c in
  port <$> worklets c' !! n
    = Some (port w ++ [PortData (map (fun v => Finite (inject_Z v / 32768))
                                     (int16_le bytes))])
  /\ length (worklets c') = length (worklets c)
  /\ isTalking c' = (if isTalking0 then isTalking c else true).
Proof.
  intros Hev Hatob Hlen Href Hw c'. subst c'. unfold onmessage.
  rewrite Hev, Hatob.
  cbn [strict_eq String.eqb Ascii.eqb Bool.eqb mbind option_bind].
  rewrite pcm16ToFloat_samples, length_map, length_int16_le, Href.
  assert (H0 : (0 <? length bytes / 2)%nat = true).
  { apply Nat.ltb_lt. apply Nat.div_str_pos. lia. }
  rewrite H0, bool_decide_true by eauto. cbn [andb].
  unfold postMessage. rewrite Href.
  destruct isTalking0; cbn; rewrite length_alter, list_lookup_alter_eq, Hw;
    repeat split.
Qed.

Lemma X4_media_witness :
  let c' := onmessage false (Some (media_chunk (Str "AQD//w=="))) engaged_open in
  port <$> worklets c' !! 0%nat
    = Some ([] ++ [PortData (map (fun v => Finite (inject_Z v / 32768))
                                 (int16_le [x01; x00; xff; xff]))])
  /\ length (worklets c') = length (worklets engaged_open)
  /\ isTalking c' = true.
Proof.
  apply (X4_media_posts_one_block engaged_open false
           (media_chunk (Str "AQD//w==")) [x01; x00; xff; xff] 0
           {| port := []; connected := true |}).
  - reflexivity.
  - reflexivity.
  - cbn [length]. lia.
  - reflexivity.
  - reflexivity.
Defined.

(** X5. No inbound message, whatever it holds, reaches beyond the
    transcript, [isTalking] and the port of the worklet node: engagement,
    the sockets and what was sent on them, the timers, the microphone graph,
    the audio contexts, the references and the effect are as before. *)
Theorem X5_message_leaves_transport_alone (c : Content) (isTalking0 : bool)
    (parsed : option chunk) :
  let c' := onmessage isTalking0 parsed c in
  isEngaged c' = isEngaged c
  /\ capture_state c' = capture_state c
  /\ timers c' = timers c
  /\ audioContextRef c' = audioContextRef c
  /\ audioWorkletNodeRef c' = audioWorkletNodeRef c
  /\ (effect_dep c', mounted c', runs c') = (effect_dep c, mounted c, runs c)
  /\ length (worklets c') = length (worklets c)
  /\ connected <$> worklets c' = connected <$> worklets c.
Proof.
  cbv zeta. unfold onmessage, capture_state.
  repeat split; frame; cbn; rewrite ?length_alter; try reflexivity;
    try congruence.
  all: apply list_eq; intros i; rewrite !list_lookup_fmap;
    destruct (decide (i = n)) as [->|Hne];
    [rewrite list_lookup_alter_eq; destruct (worklets c !! n); reflexivity
    |rewrite list_lookup_alter_ne by congruence; reflexivity].
Qed.

(** ** Sockets *)

Lemma evolves_refl (ws : WebSocket) : evolves ws ws.
Proof. repeat split; reflexivity. Qed.

Lemma evolves_trans (a b c : WebSocket) : evolves a b -> evolves b c -> evolves a c.
Proof.
  intros (S1 & C1 & R1) (S2 & C2 & R2). repeat split.
  - etransitivity; eassumption.
  - congruence.
  - lia.
Qed.

Lemma sockets_evolve_trans (a b c : Content) :
  sockets_evolve a b -> sockets_evolve b c -> sockets_evolve a c.
Proof.
  intros Hab Hbc id ws Hws.
  destruct (Hab id ws Hws) as (ws1 & H1 & E1).
  destruct (Hbc id ws1 H1) as (ws2 & H2 & E2).
  exists ws2. split; [exact H2 | eapply evolves_trans; eassumption].
Qed.

Lemma sockets_evolve_eq (c c' : Content) :
  sockets c' = sockets c -> sockets_evolve c c'.
Proof.
  intros E id ws Hws. exists ws. rewrite E. split; [exact Hws | apply evolves_refl].
Qed.

Lemma sockets_evolve_alter (c c' : Content) (f : WebSocket -> WebSocket) (i : nat) :
  (forall ws, sockets c !! i = Some ws -> evolves ws (f ws)) ->
  sockets c' = alter f i (sockets c) ->
  sockets_evolve c c'.
Proof.
  intros Hf E id ws Hws. rewrite E.
  destruct (decide (id = i)) as [->|Hne].
  - exists (f ws). rewrite list_lookup_alter_eq, Hws. split; [reflexivity | auto].
  - exists ws. rewrite list_lookup_alter_ne by congruence.
    split; [exact Hws | apply evolves_refl].
Qed.

Lemma sockets_evolve_app (c c' : Content) (l : list WebSocket) :
  sockets c' = sockets c ++ l -> sockets_evolve c c'.
Proof.
  intros E id ws Hws. exists ws. rewrite E.
  split; [apply lookup_app_l_Some, Hws | apply evolves_refl].
Qed.

Lemma evolves_close (ws : WebSocket) : evolves ws (WebSocket_close ws).
Proof.
  unfold WebSocket_close. destruct (readyState ws) eqn:E;
    repeat split; cbn; rewrite ?E; cbn; try reflexivity; lia.
Qed.

Lemma evolves_send (frame : string) (ws : WebSocket) :
  evolves ws (WebSocket_send frame ws).
Proof. repeat split; cbn; [apply prefix_app_r|]; reflexivity. Qed.

Lemma evolves_closed (ws : WebSocket) : evolves ws (set_readyState CLOSED ws).
Proof. repeat split; cbn; [reflexivity|]. destruct (readyState ws); cbn; lia. Qed.

Lemma evolves_open (ws : WebSocket) :
  readyState ws = CONNECTING -> evolves ws (set_readyState OPEN ws).
Proof. intros E. repeat split; cbn; [reflexivity|]. rewrite E. cbn. lia. Qed.

Lemma sockets_evolve_close_current (c : Content) : sockets_evolve c (close_current c).
Proof.
  unfold close_current. destruct (wsRef c) as [i|]; [|apply sockets_evolve_eq; reflexivity].
  apply (sockets_evolve_alter _ _ WebSocket_close i); [|reflexivity].
  intros ws _. apply evolves_close.
Qed.

Ltac solve_evolve :=
  first
    [ apply sockets_evolve_eq; reflexivity
    | eapply (sockets_evolve_alter _ _ WebSocket_close);
        [intros; apply evolves_close | reflexivity]
    | eapply (sockets_evolve_alter _ _ (WebSocket_send _));
        [intros; apply evolves_send | reflexivity]
    | eapply (sockets_evolve_alter _ _ (set_readyState CLOSED));
        [intros; apply evolves_closed | reflexivity]
    | eapply sockets_evolve_app; reflexivity ].

Lemma sockets_evolve_cleanup (c : Content) : sockets_evolve c (cleanup c).
Proof. unfold cleanup, current_socket, close_current. repeat case_match; solve_evolve. Qed.

Lemma sockets_evolve_connectWebSocket (b : bool) (c : Content) :
  sockets_evolve c (connectWebSocket b c).
Proof. unfold connectWebSocket. solve_evolve. Qed.

Lemma sockets_evolve_onmessage (b : bool) (parsed : option chunk) (c : Content) :
  sockets_evolve c (onmessage b parsed c).
Proof.
  apply sockets_evolve_eq.
  destruct (onmessage_frame b parsed c) as (_ & _ & _ & _ & E). exact E.
Qed.

Lemma sockets_evolve_onaudioprocess (samples : list number) (c : Content) :
  sockets_evolve c (onaudioprocess samples c).
Proof. unfold onaudioprocess. repeat case_match; solve_evolve. Qed.

Lemma sockets_evolve_initAudio (g : nat) (b : bool) (outcome : init_outcome)
    (c : Content) :
  sockets_evolve c (initAudio g b outcome c).
Proof.
  unfold initAudio, initAudioWorklet, connectWebSocket.
  destruct outcome; repeat case_match; solve_evolve.
Qed.

Lemma sockets_evolve_commit (c : Content) : sockets_evolve c (commit c).
Proof.
  unfold commit. case_bool_decide; [solve_evolve|].
  set (c1 := match mounted c with Some _ => cleanup c | None => c end).
  assert (H1 : sockets_evolve c c1).
  { subst c1. destruct (mounted c); [apply sockets_evolve_cleanup | solve_evolve]. }
  destruct (negb (isEngaged c1)).
  - apply (sockets_evolve_trans _ _ _ H1).
    apply sockets_evolve_trans with (b := cleanup c1);
      [apply sockets_evolve_cleanup | solve_evolve].
  - apply (sockets_evolve_trans _ _ _ H1). solve_evolve.
Qed.

Lemma sockets_evolve_step (c : Content) (i : input) : sockets_evolve c (step c i).
Proof.
  destruct i; cbn [step].
  - unfold onClick. destruct (isEngaged c); solve_evolve.
  - apply sockets_evolve_commit.
  - repeat case_match; try solve_evolve.
    eapply sockets_evolve_trans; [|apply sockets_evolve_initAudio]. solve_evolve.
  - repeat case_match; try solve_evolve.
    unfold connectionTimeout. repeat case_match; try solve_evolve.
    eapply sockets_evolve_trans; [|apply sockets_evolve_connectWebSocket].
    eapply sockets_evolve_trans; [|apply sockets_evolve_close_current].
    solve_evolve.
  - repeat case_match; try solve_evolve.
    apply (sockets_evolve_alter _ _ (set_readyState OPEN) id); [|reflexivity].
    intros ws Hws. apply evolves_open. congruence.
  - repeat case_match; try solve_evolve. apply sockets_evolve_onmessage.
  - repeat case_match; solve_evolve.
  - repeat case_match; try solve_evolve.
    unfold onclose. case_match; solve_evolve.
  - unfold initMicrophone. repeat case_match; solve_evolve.
  - repeat case_match; try solve_evolve. apply sockets_evolve_onaudioprocess.
  - repeat case_match; solve_evolve.
Qed.

(** X6. The component never drops or reuses a socket.  Through any inputs
    each socket stays at its place with its closure, the frames sent on it
    are only added to, in order, and its ready state never goes back: a
    socket that is closing or closed is not opened again. *)
Theorem X6_sockets_only_evolve (trace : list input) (c : Content) (id : nat)
    (ws : WebSocket) :
  sockets c !! id = Some ws ->
  exists ws',
    sockets (run c trace) !! id = Some ws'
    /\ sent ws `prefix_of` sent ws'
    /\ closure_isTalking ws' = closure_isTalking ws
    /\ (rank (readyState ws) <= rank (readyState ws'))%nat.
Proof.
  revert c ws. unfold run.
  induction trace as [|i l IH]; intros c ws Hws; cbn [foldl].
  - exists ws. split; [exact Hws | apply evolves_refl].
  - destruct (sockets_evolve_step c i id ws Hws) as (ws1 & H1 & E1).
    destruct (IH _ _ H1) as (ws2 & H2 & E2).
    exists ws2. split; [exact H2 | exact (evolves_trans _ _ _ E1 E2)].
Qed.

Lemma X6_sockets_witness :
  exists ws',
    sockets (run engaged_open
               [AudioProcess 0 [Finite (1 # 2)]; WsClose 0 1006; Timeout 0])
      !! 0%nat = Some ws'
    /\ sent {| readyState := OPEN; sent := []; closure_isTalking := false |}
         `prefix_of` sent ws'
    /\ closure_isTalking ws' = false
    /\ (rank OPEN <= rank (readyState ws'))%nat.
Proof.
  apply (X6_sockets_only_evolve
           [AudioProcess 0 [Finite (1 # 2)]; WsClose 0 1006; Timeout 0]
           engaged_open 0
           {| readyState := OPEN; sent := []; closure_isTalking := false |}).
  reflexivity.
Defined.

Lemma fmap_sent_alter (f : WebSocket -> WebSocket) (i : nat) (l : list WebSocket) :
  (forall ws, sent (f ws) = sent ws) -> sent <$> alter f i l = sent <$> l.
Proof.
  intros Hf. apply list_eq. intros j. rewrite !list_lookup_fmap.
  destruct (decide (j = i)) as [->|Hne].
  - rewrite list_lookup_alter_eq. destruct (l !! i); cbn; [rewrite Hf|]; reflexivity.
  - rewrite list_lookup_alter_ne by congruence. reflexivity.
Qed.

Lemma sent_close (ws : WebSocket) : sent (WebSocket_close ws) = sent ws.
Proof. unfold WebSocket_close. destruct (readyState ws); reflexivity. Qed.

Lemma sent_cleanup (c : Content) : sent <$> sockets (cleanup c) = sent <$> sockets c.
Proof.
  unfold cleanup, current_socket, close_current.
  repeat case_match; cbn; rewrite ?(fmap_sent_alter _ _ _ sent_close); reflexivity.
Qed.

Lemma sent_commit (c : Content) : sent <$> sockets (commit c) = sent <$> sockets c.
Proof.
  unfold commit. case_bool_decide; [reflexivity|].
  destruct (mounted c);
    repeat match goal with
           | |- context [if ?b then _ else _] => destruct b
           end; cbn [sockets set_effect set_runs];
    rewrite ?sent_cleanup; reflexivity.
Qed.

Lemma sent_initAudio (g : nat) (b : bool) (outcome : init_outcome) (c : Content) :
  exists k, sent <$> sockets (initAudio g b outcome c)
            = (sent <$> sockets c) ++ replicate k [].
Proof.
  unfold initAudio, initAudioWorklet, connectWebSocket.
  destruct outcome; repeat case_match; cbn;
    first [ exists 0%nat; cbn; rewrite app_nil_r; reflexivity
          | exists 1%nat; rewrite fmap_app; reflexivity ].
Qed.

Lemma sent_onaudioprocess (samples : list number) (c : Content) :
  onaudioprocess samples c = c
  \/ exists id ws frame,
       wsRef c = Some id /\ sockets c !! id = Some ws /\ readyState ws = OPEN
       /\ encode samples = Some frame
       /\ sent <$> sockets (onaudioprocess samples c)
          = <[id := sent ws ++ [frame]]> (sent <$> sockets c).
Proof.
  unfold onaudioprocess, current_socket.
  destruct (wsRef c) as [id|] eqn:Href; [|auto]. cbn [mbind option_bind].
  destruct (sockets c !! id) as [ws|] eqn:Hws; [|auto].
  destruct (decide (readyState ws <> OPEN)) as [|Hopen]; [auto|].
  destruct (encode samples) as [frame|] eqn:Henc; [|auto].
  right. exists id, ws, frame.
  assert (Hr : readyState ws = OPEN)
    by (destruct (readyState ws); try reflexivity; exfalso; apply Hopen; discriminate).
  repeat split; try assumption. cbn [sockets set_sockets].
  apply list_eq. intros j. rewrite list_lookup_fmap.
  destruct (decide (j = id)) as [->|Hne].
  - rewrite list_lookup_alter_eq, Hws, list_lookup_insert_eq; [reflexivity|].
    rewrite length_fmap. eapply lookup_lt_Some, Hws.
  - rewrite list_lookup_alter_ne, list_lookup_insert_ne, list_lookup_fmap by congruence.
    reflexivity.
Qed.

(** X7. A frame goes out only for a captured block, on the socket of
    [wsRef] and only when that socket is open: it is the encoding of the
    block, added after the frames already sent there.  Every other input
    leaves what was sent on every socket as it is; a socket it creates
    starts with nothing sent. *)
Theorem X7_frames_only_from_open_capture (c : Content) (i : input) :
  (exists k, sent <$> sockets (step c i) = (sent <$> sockets c) ++ replicate k [])
  \/ (exists p samples id ws frame,
        i = AudioProcess p samples
        /\ wsRef c = Some id /\ sockets c !! id = Some ws /\ readyState ws = OPEN
        /\ encode samples = Some frame
        /\ sent <$> sockets (step c i)
           = <[id := sent ws ++ [frame]]> (sent <$> sockets c)).
Proof.
  assert (Same : forall c', sent <$> sockets c' = sent <$> sockets c ->
                 exists k, sent <$> sockets c' = (sent <$> sockets c) ++ replicate k []).
  { intros c' E. exists 0%nat. cbn. rewrite app_nil_r. exact E. }
  destruct i; cbn [step].
  - left. apply Same. unfold onClick. destruct (isEngaged c); reflexivity.
  - left. apply Same, sent_commit.
  - left. repeat case_match; try (apply Same; reflexivity).
    destruct (sent_initAudio g (run_isTalking e) outcome
                (set_runs (alter (fun r => {| run_isTalking := run_isTalking r;
                                              awaiting := false |}) g) c)) as [k Hk].
    exists k. exact Hk.
  - left. repeat case_match; try (apply Same; reflexivity).
    unfold connectionTimeout, connectWebSocket, close_current, current_socket, clearTimeout.
    repeat case_match; cbn; try (apply Same; reflexivity);
      exists 1%nat; rewrite fmap_app, ?(fmap_sent_alter _ _ _ sent_close); reflexivity.
  - left. apply Same. repeat case_match; cbn; rewrite ?fmap_sent_alter; reflexivity.
  - left. apply Same. repeat case_match; try reflexivity.
    destruct (onmessage_frame (closure_isTalking w) parsed c) as (_ & _ & _ & _ & E).
    rewrite E. reflexivity.
  - left. apply Same. repeat case_match; reflexivity.
  - left. apply Same. unfold onclose.
    repeat case_match; cbn; rewrite ?fmap_sent_alter; reflexivity.
  - left. apply Same. unfold initMicrophone. repeat case_match; reflexivity.
  - destruct (processors c !! p) as [cx|]; [|left; apply Same; reflexivity].
    destruct (contexts c !! cx) as [[|]|]; try (left; apply Same; reflexivity).
    destruct (sent_onaudioprocess samples c) as [E|(id & ws & frame & H)].
    + left. apply Same. rewrite E. reflexivity.
    + right. exists p, samples, id, ws, frame. tauto.
  - left. apply Same. repeat case_match; reflexivity.
Qed.

(** ** Audio contexts *)

Lemma lookup_closed_insert (cx : list bool) (n i : nat) :
  <[n := true]> cx !! i = Some false -> i <> n /\ cx !! i = Some false.
Proof.
  intros H. apply list_lookup_insert_Some in H as [(-> & E & _)|(Hne & H)].
  - discriminate.
  - split; [congruence | exact H].
Qed.

Lemma single_open_cleanup (c : Content) :
  single_open_context c -> single_open_context (cleanup c).
Proof.
  intros Hc. unfold cleanup, current_socket, close_current, single_open_context.
  repeat case_match; cbn; intros i Hi; try (apply Hc; exact Hi).
  all: apply lookup_closed_insert in Hi as [Hne Hi]; apply Hc in Hi; congruence.
Qed.

Lemma single_open_initAudio (g : nat) (b : bool) (outcome : init_outcome)
    (c : Content) :
  single_open_context c -> single_open_context (initAudio g b outcome c).
Proof.
  intros Hc. unfold initAudio, initAudioWorklet, connectWebSocket, single_open_context.
  destruct outcome; repeat case_match; cbn; intros i Hi;
    repeat match goal with
    | H : (_ ++ [false]) !! _ = Some false |- _ =>
        apply lookup_app_Some in H as [H|[Hlen H]]
    | H : <[_ := true]> _ !! _ = Some false |- _ =>
        apply lookup_closed_insert in H as [? H]
    | H : contexts c !! _ = Some false |- _ => apply Hc in H
    | H : [false] !! _ = Some false |- _ =>
        apply list_lookup_singleton_Some in H as [H _]
    end; try congruence; try (f_equal; rewrite ?length_insert in *; lia).
Qed.

Lemma single_open_commit (c : Content) :
  single_open_context c -> single_open_context (commit c).
Proof.
  intros Hc. unfold commit. case_bool_decide; [exact Hc|].
  set (c1 := match mounted c with Some _ => cleanup c | None => c end).
  assert (H1 : single_open_context c1)
    by (subst c1; destruct (mounted c); [apply single_open_cleanup|]; exact Hc).
  destruct (negb (isEngaged c1)).
  - apply (single_open_cleanup c1) in H1. exact H1.
  - exact H1.
Qed.

Lemma onmessage_contexts (b : bool) (parsed : option chunk) (c : Content) :
  contexts (onmessage b parsed c) = contexts c
  /\ audioContextRef (onmessage b parsed c) = audioContextRef c.
Proof. unfold onmessage. split; frame. Qed.

Lemma single_open_step (c : Content) (i : input) :
  single_open_context c -> single_open_context (step c i).
Proof.
  intros Hc. destruct i; cbn [step].
  - unfold onClick. destruct (isEngaged c); exact Hc.
  - apply single_open_commit, Hc.
  - repeat case_match; try exact Hc. apply single_open_initAudio. exact Hc.
  - repeat case_match; try exact Hc.
    unfold connectionTimeout, connectWebSocket, close_current, current_socket.
    repeat case_match; exact Hc.
  - repeat case_match; exact Hc.
  - repeat case_match; try exact Hc. unfold single_open_context.
    destruct (onmessage_contexts (closure_isTalking w) parsed c) as [Hcx Href].
    rewrite Hcx, Href. exact Hc.
  - repeat case_match; exact Hc.
  - unfold onclose. repeat case_match; exact Hc.
  - unfold initMicrophone. repeat case_match; exact Hc.
  - unfold onaudioprocess. repeat case_match; exact Hc.
  - repeat case_match; exact Hc.
Qed.



(** ** Connection timers *)

Lemma tp_fields (c c' : Content) :
  timers c' = timers c -> sockets c' = sockets c ->
  timers_pending c -> timers_pending c'.
Proof. intros Et Es Hc id. rewrite Et, Es. apply Hc. Qed.

Lemma tp_close_current (c : Content) :
  timers_pending c -> timers_pending (close_current c).
Proof.
  intros Hc. unfold close_current. destruct (wsRef c) as [i|]; [|exact Hc].
  intros id Hid. cbn in *. destruct (Hc id Hid) as (ws & Hws & Hr).
  destruct (decide (id = i)) as [->|Hne].
  - exists (WebSocket_close ws). rewrite list_lookup_alter_eq, Hws. split; [reflexivity|].
    unfold WebSocket_close, set_readyState.
    destruct (readyState ws) eqn:E; cbn; rewrite ?E; auto.
  - exists ws. rewrite list_lookup_alter_ne by congruence. auto.
Qed.

Lemma tp_connectWebSocket (b : bool) (c : Content) :
  timers_pending c -> timers_pending (connectWebSocket b c).
Proof.
  intros Hc id Hid. unfold connectWebSocket in *. cbn in *.
  apply elem_of_app in Hid as [Hid|Hid].
  - destruct (Hc id Hid) as (ws & Hws & Hr). exists ws.
    split; [apply lookup_app_l_Some, Hws | exact Hr].
  - apply list_elem_of_singleton in Hid as ->.
    eexists. rewrite lookup_app_r, Nat.sub_diag by lia. cbn. split; [reflexivity|auto].
Qed.

Lemma tp_clear (c c' : Content) (f : WebSocket -> WebSocket) (id : nat) :
  timers c' = filter (fun t => t <> id) (timers c) ->
  sockets c' = alter f id (sockets c) ->
  timers_pending c -> timers_pending c'.
Proof.
  intros Et Es Hc j. rewrite Et, Es. intros Hj.
  apply list_elem_of_filter in Hj as [Hne Hj].
  destruct (Hc j Hj) as (ws & Hws & Hr). exists ws.
  rewrite list_lookup_alter_ne by congruence. auto.
Qed.

Lemma tp_clear_same (c c' : Content) (id : nat) :
  timers c' = filter (fun t => t <> id) (timers c) ->
  sockets c' = sockets c ->
  timers_pending c -> timers_pending c'.
Proof.
  intros Et Es. apply (tp_clear c c' (fun ws => ws) id Et).
  rewrite Es. symmetry. apply list_alter_id. reflexivity.
Qed.

Lemma tp_send (c c' : Content) (frame : string) (i : nat) :
  timers c' = timers c ->
  sockets c' = alter (WebSocket_send frame) i (sockets c) ->
  timers_pending c -> timers_pending c'.
Proof.
  intros Et Es Hc id. rewrite Et, Es. intros Hid.
  destruct (Hc id Hid) as (ws & Hws & Hr).
  destruct (decide (id = i)) as [->|Hne].
  - exists (WebSocket_send frame ws). rewrite list_lookup_alter_eq, Hws. auto.
  - exists ws. rewrite list_lookup_alter_ne by congruence. auto.
Qed.

Lemma tp_cleanup (c : Content) : timers_pending c -> timers_pending (cleanup c).
Proof.
  intros Hc. pose proof (tp_close_current c Hc) as Hc'.
  unfold cleanup, current_socket in *.
  repeat case_match;
    first [ apply (tp_fields c); [reflexivity | reflexivity | exact Hc]
          | apply (tp_fields (close_current c)); [reflexivity | reflexivity | exact Hc'] ].
Qed.

Lemma tp_initAudio (g : nat) (b : bool) (outcome : init_outcome) (c : Content) :
  timers_pending c -> timers_pending (initAudio g b outcome c).
Proof.
  intros Hc. unfold initAudio, initAudioWorklet.
  destruct outcome; repeat case_match;
    try (apply tp_connectWebSocket);
    (eapply tp_fields; [| | exact Hc]; reflexivity).
Qed.

Lemma tp_commit (c : Content) : timers_pending c -> timers_pending (commit c).
Proof.
  intros Hc. unfold commit. case_bool_decide; [exact Hc|].
  set (c1 := match mounted c with Some _ => cleanup c | None => c end).
  assert (H1 : timers_pending c1)
    by (subst c1; destruct (mounted c); [apply tp_cleanup|]; exact Hc).
  destruct (negb (isEngaged c1)).
  - apply (tp_fields (cleanup c1)); [reflexivity | reflexivity | apply tp_cleanup, H1].
  - apply (tp_fields c1); [reflexivity | reflexivity | exact H1].
Qed.

Lemma tp_step (c : Content) (i : input) :
  timers_pending c -> timers_pending (step c i).
Proof.
  intros Hc. destruct i; cbn [step].
  - unfold onClick. destruct (isEngaged c);
      (eapply tp_fields; [| | exact Hc]; reflexivity).
  - apply tp_commit, Hc.
  - repeat case_match; try exact Hc. apply tp_initAudio.
    eapply tp_fields; [| | exact Hc]; reflexivity.
  - repeat case_match; try exact Hc.
    assert (H1 : timers_pending (clearTimeout id c))
      by (eapply tp_clear_same; [| | exact Hc]; reflexivity).
    unfold connectionTimeout. repeat case_match; try exact H1.
    apply tp_connectWebSocket, tp_close_current, H1.
  - repeat case_match; try exact Hc.
    eapply (tp_clear c _ (set_readyState OPEN) id); [| | exact Hc]; reflexivity.
  - repeat case_match; try exact Hc.
    destruct (onmessage_frame (closure_isTalking w) parsed c) as (T & _ & _ & _ & S).
    eapply tp_fields; [exact T | exact S | exact Hc].
  - repeat case_match; try exact Hc.
    eapply tp_clear_same; [| | exact Hc]; reflexivity.
  - unfold onclose. repeat case_match; try exact Hc;
      (eapply (tp_clear c _ (set_readyState CLOSED) id); [| | exact Hc]; reflexivity).
  - unfold initMicrophone. repeat case_match; try exact Hc;
      (eapply tp_fields; [| | exact Hc]; reflexivity).
  - unfold onaudioprocess. repeat case_match; try exact Hc.
    eapply tp_send; [| | exact Hc]; reflexivity.
  - repeat case_match; exact Hc.
Qed.

(** X9. The connection timer of a socket is cancelled as soon as the socket
    opens, fails or closes: from the start and through any inputs, a timer
    is pending only for a socket that is connecting or being closed, never
    for an open or a closed one. *)
Theorem X9_timer_only_while_connecting (trace : list input) (id : nat) :
  id ∈ timers (run initial trace) ->
  exists ws,
    sockets (run initial trace) !! id = Some ws
    /\ (readyState ws = CONNECTING \/ readyState ws = CLOSING).
Proof.
  assert (H : forall l c, timers_pending c -> timers_pending (run c l)).
  { unfold run. induction l as [|x l IH]; intros c Hc; cbn [foldl];
      [exact Hc | apply IH, tp_step, Hc]. }
  apply (H trace initial). intros j Hj. cbn in Hj. apply elem_of_nil in Hj as [].
Qed.

Lemma X9_timer_witness :
  exists ws,
    sockets (run initial [Click; Commit; AudioWorkletSettled 0 InitOk; Timeout 0])
      !! 1%nat = Some ws
    /\ (readyState ws = CONNECTING \/ readyState ws = CLOSING).
Proof.
  apply (X9_timer_only_while_connecting
           [Click; Commit; AudioWorkletSettled 0 InitOk; Timeout 0] 1).
  vm_compute. constructor.
Defined.

(** ** [cleanup] *)

Lemma cleanup_halves (c : Content) : cleanup c = cleanup_audio (cleanup_socket c).
Proof. reflexivity. Qed.

Lemma cleanup_socket_idem (c : Content) :
  cleanup_socket (cleanup_socket c) = cleanup_socket c.
Proof.
  destruct c as [m t e acr awr ws cx wl sk tm pr mi ed mo rn].
  unfold cleanup_socket, current_socket, close_current, set_sockets. cbn.
  destruct ws as [i|]; cbn; [|reflexivity].
  destruct (sk !! i) as [w|] eqn:E; cbn; [|rewrite E; reflexivity].
  destruct (readyState w) eqn:R; cbn; rewrite ?list_lookup_alter_eq, ?E; cbn;
    unfold WebSocket_close; rewrite ?R; cbn; rewrite ?R; reflexivity.
Qed.

Lemma disconnect_twice (n : nat) (wl : list AudioWorkletNode) :
  alter (fun w => {| port := port w; connected := false |}) n
    (alter (fun w => {| port := port w; connected := false |}) n wl)
  = alter (fun w => {| port := port w; connected := false |}) n wl.
Proof.
  rewrite list_alter_alter_eq. apply list_alter_ext; [|reflexivity].
  intros w _. reflexivity.
Qed.

Lemma cleanup_audio_idem (c : Content) :
  cleanup_audio (cleanup_audio c) = cleanup_audio c.
Proof.
  destruct c as [m t e acr awr ws cx wl sk tm pr mi ed mo rn].
  unfold cleanup_audio, set_contexts, set_worklets. cbn.
  destruct acr as [i|]; cbn.
  - destruct (cx !! i) as [[|]|] eqn:E; cbn; rewrite ?E; try reflexivity.
    + destruct awr as [n|]; cbn; rewrite list_lookup_insert_eq
        by (eapply lookup_lt_Some, E); reflexivity.
    + assert (Hi : <[i:=true]> cx = cx)
        by (apply list_insert_ge, lookup_ge_None, E).
      destruct awr as [n|]; cbn; rewrite !Hi, E, ?disconnect_twice; reflexivity.
  - destruct awr as [n|]; cbn; rewrite ?disconnect_twice; reflexivity.
Qed.

Lemma cleanup_halves_commute (c : Content) :
  cleanup_socket (cleanup_audio c) = cleanup_audio (cleanup_socket c).
Proof.
  destruct c as [m t e acr awr ws cx wl sk tm pr mi ed mo rn].
  unfold cleanup_socket, cleanup_audio, current_socket, close_current,
    set_sockets, set_contexts, set_worklets.
  destruct ws as [i|]; cbn;
    [destruct (sk !! i) as [w|] eqn:E; cbn; [destruct (readyState w) eqn:R|]|];
    (destruct acr as [j|]; cbn; [destruct (cx !! j) as [[|]|] eqn:F|]);
    destruct awr as [n|]; cbn; rewrite ?E; cbn; rewrite ?R; cbn; rewrite ?F;
    reflexivity.
Qed.

Lemma cleanup_idem (c : Content) : cleanup (cleanup c) = cleanup c.
Proof.
  rewrite !cleanup_halves, <- (cleanup_halves_commute (cleanup_audio _)).
  rewrite cleanup_audio_idem, cleanup_halves_commute, cleanup_socket_idem.
  reflexivity.
Qed.

Lemma current_socket_cleanup_audio (c : Content) :
  current_socket (cleanup_audio c) = current_socket c.
Proof. unfold cleanup_audio, current_socket. repeat case_match; reflexivity. Qed.

Lemma cleanup_socket_closing (c : Content) (ws : WebSocket) :
  current_socket (cleanup_socket c) = Some ws ->
  readyState ws = CLOSING \/ readyState ws = CLOSED.
Proof.
  unfold cleanup_socket, current_socket, close_current.
  destruct (wsRef c) as [i|] eqn:Href; cbn; [|rewrite Href; discriminate].
  destruct (sockets c !! i) as [w|] eqn:E; cbn;
    [|rewrite Href; cbn; rewrite E; discriminate].
  destruct (readyState w) eqn:R; cbn; rewrite Href; cbn;
    rewrite ?list_lookup_alter_eq, E; cbn; intros [= <-];
    unfold WebSocket_close; rewrite ?R; cbn; auto.
Qed.

Lemma cleanup_audio_closed (c : Content) (i : nat) (closed : bool) :
  audioContextRef (cleanup_audio c) = Some i ->
  contexts (cleanup_audio c) !! i = Some closed -> closed = true.
Proof.
  unfold cleanup_audio.
  destruct (audioContextRef c) as [j|] eqn:Href; cbn.
  - destruct (contexts c !! j) as [[|]|] eqn:E; cbn.
    + rewrite Href. intros Hi. injection Hi as <-. rewrite E. congruence.
    + destruct (audioWorkletNodeRef c); cbn; rewrite Href; cbn; rewrite ?Href;
        intros Hi H; injection Hi as <-;
        apply list_lookup_insert_Some in H as [(_ & Hx & _)|(Hne & _)];
        congruence.
    + destruct (audioWorkletNodeRef c); cbn; rewrite Href; cbn; rewrite ?Href;
        intros Hi H; injection Hi as <-;
        apply list_lookup_insert_Some in H as [(_ & Hx & _)|(Hne & _)];
        congruence.
  - destruct (audioWorkletNodeRef c); cbn; rewrite Href; cbn; rewrite ?Href;
      discriminate.
Qed.

Lemma cleanup_torn_down (c : Content) : torn_down (cleanup c).
Proof.
  rewrite cleanup_halves. split.
  - intros ws. rewrite current_socket_cleanup_audio. apply cleanup_socket_closing.
  - apply cleanup_audio_closed.
Qed.

(** X10. [cleanup] is idempotent, and it leaves the socket of [wsRef]
    closing or closed and the audio context of [audioContextRef] closed.  It
    does not cancel a pending connection timer, and it changes neither the
    engagement nor the transcript. *)
Theorem X10_cleanup_idempotent (c : Content) :
  cleanup (cleanup c) = cleanup c
  /\ torn_down (cleanup c)
  /\ timers (cleanup c) = timers c
  /\ isEngaged (cleanup c) = isEngaged c
  /\ messages (cleanup c) = messages c.
Proof.
  split; [apply cleanup_idem|]. split; [apply cleanup_torn_down|].
  destruct (cleanup_frame c) as (T & _ & E & _).
  repeat split; [exact T | exact E | apply messages_cleanup].
Qed.

(** ** The retry loop *)

(** X11. While the latest socket stays connecting, each timeout closes it
    and begins one more attempt with a timer of its own: [n] timeouts in a
    row begin [n] attempts, with no bound and no change with the number of
    attempts made.  Engagement is neither read nor changed. *)
Theorem X11_retry_without_bound (n : nat) (c : Content) :
  retrying c ->
  let c' := run c (map Timeout (seq (attempts c - 1) n)) in
  attempts c' = (attempts c + n)%nat
  /\ retrying c'
  /\ isEngaged c' = isEngaged c.
Proof.
  revert c. unfold run. induction n as [|n IH]; intros c Hc; cbn [seq map foldl].
  - repeat split; [lia | exact Hc].
  - destruct (retrying_timeout c Hc) as (Hr & Ha & He).
    specialize (IH _ Hr). cbv zeta in IH. rewrite Ha, He in IH.
    replace (S (attempts c) - 1)%nat with (S (attempts c - 1)) in IH
      by (destruct Hc as (id & Hn & _); lia).
    destruct IH as (IH1 & IH2 & IH3). repeat split; [lia | assumption | assumption].
Qed.

Lemma X11_retry_witness :
  let c' := run engaged_connecting
              (map Timeout (seq (attempts engaged_connecting - 1) 3)) in
  attempts c' = (attempts engaged_connecting + 3)%nat
  /\ retrying c'
  /\ isEngaged c' = isEngaged engaged_connecting.
Proof.
  apply (X11_retry_without_bound 3 engaged_connecting).
  exists 0%nat. vm_compute. repeat split. constructor.
Defined.

(** ** Starting the audio output *)

(** X12. [initAudio] connects only when [initAudioWorklet] succeeded and
    its effect run is still the mounted one: then exactly one attempt
    begins.  When the audio setup fails on a mounted run engagement is
    reverted; on a run already cleaned up nothing is connected and
    engagement is left alone. *)
Theorem X12_initAudio_connects_when_mounted (g : nat) (isTalking0 : bool)
    (outcome : init_outcome) (c : Content) :
  let c' := initAudio g isTalking0 outcome c in
  (outcome = InitOk /\ mounted c = Some g ->
   attempts c' = S (attempts c) /\ wsRef c' = Some (attempts c)
   /\ attempts c ∈ timers c' /\ isEngaged c' = isEngaged c)
  /\ (outcome <> InitOk -> mounted c = Some g ->
      attempts c' = attempts c /\ timers c' = timers c /\ isEngaged c' = false)
  /\ (mounted c <> Some g ->
      attempts c' = attempts c /\ timers c' = timers c
      /\ isEngaged c' = isEngaged c).
Proof.
  cbv zeta. unfold initAudio, initAudioWorklet, connectWebSocket, attempts.
  repeat split.
  - destruct H as [-> Hm]. destruct (audioContextRef c); cbn;
      rewrite bool_decide_true by exact Hm; cbn; rewrite length_app; cbn; lia.
  - destruct H as [-> Hm]. destruct (audioContextRef c); cbn;
      rewrite bool_decide_true by exact Hm; reflexivity.
  - destruct H as [-> Hm]. destruct (audioContextRef c); cbn;
      rewrite bool_decide_true by exact Hm; cbn;
      apply elem_of_app; right; constructor.
  - destruct H as [-> Hm]. destruct (audioContextRef c); cbn;
      rewrite bool_decide_true by exact Hm; reflexivity.
  - destruct outcome, (audioContextRef c); cbn; try contradiction;
      rewrite ?bool_decide_true by assumption; reflexivity.
  - destruct outcome, (audioContextRef c); cbn; try contradiction;
      rewrite ?bool_decide_true by assumption; reflexivity.
  - destruct outcome, (audioContextRef c); cbn; try contradiction;
      rewrite ?bool_decide_true by assumption; reflexivity.
  - destruct outcome, (audioContextRef c); cbn;
      rewrite ?bool_decide_false by assumption; reflexivity.
  - destruct outcome, (audioContextRef c); cbn;
      rewrite ?bool_decide_false by assumption; reflexivity.
  - destruct outcome, (audioContextRef c); cbn;
      rewrite ?bool_decide_false by assumption; reflexivity.
Qed.

Lemma X12_initAudio_witness :
  let c := run initial [Click; Commit] in
  (attempts (initAudio 0 false InitOk c) = 1%nat
   /\ wsRef (initAudio 0 false InitOk c) = Some 0%nat)
  /\ isEngaged (initAudio 0 false FailModule c) = false
  /\ attempts (initAudio 7 false InitOk c) = 0%nat.
Proof.
  cbv zeta. split; [|split].
  - destruct (X12_initAudio_connects_when_mounted 0 false InitOk
                (run initial [Click; Commit])) as (H & _ & _).
    destruct H as (H1 & H2 & _); [split; reflexivity|]. split; [exact H1 | exact H2].
  - destruct (X12_initAudio_connects_when_mounted 0 false FailModule
                (run initial [Click; Commit])) as (_ & H & _).
    destruct H as (_ & _ & H3); [discriminate | reflexivity | exact H3].
  - destruct (X12_initAudio_connects_when_mounted 7 false InitOk
                (run initial [Click; Commit])) as (_ & _ & H).
    destruct H as (H1 & _); [discriminate | exact H1].
Defined.

(** ** Disengaging and engaging *)

Lemma isTalking_cleanup (c : Content) : isTalking (cleanup c) = isTalking c.
Proof. frame. Qed.

Lemma commit_disengages (c : Content) :
  isEngaged c = false -> effect_dep c = true ->
  isEngaged (commit c) = false
  /\ effect_dep (commit c) = false
  /\ mounted (commit c) = None
  /\ torn_down (commit c)
  /\ attempts (commit c) = attempts c
  /\ timers (commit c) = timers c
  /\ isTalking (commit c) = isTalking c.
Proof.
  intros He Hd. unfold commit.
  rewrite bool_decide_false by congruence.
  set (c1 := match mounted c with Some _ => cleanup c | None => c end).
  destruct (cleanup_frame c) as (T0 & _ & E0 & A0).
  assert (F1 : isEngaged c1 = false /\ attempts c1 = attempts c
               /\ timers c1 = timers c /\ isTalking c1 = isTalking c).
  { subst c1. destruct (mounted c); [|auto].
    rewrite E0, A0, T0, isTalking_cleanup. auto. }
  destruct F1 as (E1 & A1 & T1 & K1).
  rewrite E1. cbn [negb].
  destruct (cleanup_frame c1) as (T2 & _ & E2 & A2).
  pose proof (cleanup_torn_down c1) as Htd.
  repeat split; cbn; try congruence.
  - apply Htd.
  - apply Htd.
  - unfold attempts in *. cbn. congruence.
  - rewrite isTalking_cleanup. exact K1.
Qed.

(** X13. Disengaging from the link, once React has run the effect, tears
    the session down: engagement and [isTalking] are false, the socket of
    [wsRef] is closing or closed, the audio context is closed, and no effect
    run is mounted.  No socket is created; the pending timers are still
    pending. *)
Theorem X13_disengage_tears_down (c : Content) :
  isEngaged c = true -> effect_dep c = true ->
  let c' := run c [Click; Commit] in
  isEngaged c' = false /\ isTalking c' = false
  /\ effect_dep c' = false /\ mounted c' = None
  /\ torn_down c'
  /\ attempts c' = attempts c /\ timers c' = timers c.
Proof.
  intros He Hd c'. subst c'. unfold run. cbn [foldl step].
  assert (Hc : onClick c = setTalking false (setEngaged false c))
    by (unfold onClick; rewrite He; reflexivity).
  rewrite Hc.
  destruct (commit_disengages (setTalking false (setEngaged false c)))
    as (H1 & H2 & H3 & H4 & H5 & H6 & H7); [reflexivity | exact Hd |].
  repeat split; try assumption; apply H4.
Qed.

Lemma X13_disengage_witness :
  let c' := run engaged_open [Click; Commit] in
  isEngaged c' = false /\ isTalking c' = false
  /\ effect_dep c' = false /\ mounted c' = None
  /\ torn_down c'
  /\ attempts c' = attempts engaged_open /\ timers c' = timers engaged_open.
Proof.
  apply (X13_disengage_tears_down engaged_open); reflexivity.
Defined.

(** X14. A close with the normal-closure code, once React has run the
    effect, tears the session down like a disengagement from the link:
    engagement and [isTalking] are false, the audio context is closed, no
    effect run is mounted, the timer of the socket is cancelled and no
    socket is created. *)
Theorem X14_normal_close_tears_down (c : Content) (id : nat) (ws : WebSocket) :
  sockets c !! id = Some ws -> readyState ws <> CLOSED ->
  effect_dep c = true ->
  let c' := run c [WsClose id normal_closure; Commit] in
  isEngaged c' = false /\ isTalking c' = false
  /\ effect_dep c' = false /\ mounted c' = None
  /\ torn_down c'
  /\ attempts c' = attempts c /\ (id ∉ timers c').
Proof.
  intros Hws Hrs Hd c'. subst c'. unfold run. cbn [foldl].
  rewrite (step_WsClose c id normal_closure ws Hws Hrs).
  change (step ?x Commit) with (commit x).
  set (c1 := onclose id normal_closure
               (set_sockets (alter (set_readyState CLOSED) id) c)).
  assert (F : isEngaged c1 = false /\ effect_dep c1 = true /\ isTalking c1 = false
              /\ attempts c1 = attempts c
              /\ timers c1 = filter (fun t => t <> id) (timers c)).
  { subst c1. unfold onclose, attempts.
    destruct (decide (normal_closure <> normal_closure)); [contradiction|].
    cbn. rewrite length_alter. auto. }
  destruct F as (E1 & D1 & K1 & A1 & T1).
  destruct (commit_disengages c1 E1 D1) as (H1 & H2 & H3 & H4 & H5 & H6 & H7).
  fold c1. repeat split; try assumption; try apply H4; try congruence.
  rewrite H6, T1. rewrite list_elem_of_filter. tauto.
Qed.

Lemma X14_normal_close_witness :
  let c' := run engaged_open [WsClose 0 normal_closure; Commit] in
  isEngaged c' = false /\ isTalking c' = false
  /\ effect_dep c' = false /\ mounted c' = None
  /\ torn_down c'
  /\ attempts c' = attempts engaged_open /\ (0%nat ∉ timers c').
Proof.
  apply (X14_normal_close_tears_down engaged_open 0
           {| readyState := OPEN; sent := []; closure_isTalking := false |}).
  - reflexivity.
  - discriminate.
  - reflexivity.
Defined.

Lemma length_contexts_cleanup (c : Content) :
  length (contexts (cleanup c)) = length (contexts c).
Proof. frame; cbn; rewrite ?length_insert; reflexivity. Qed.

Lemma initAudio_ok (g : nat) (b : bool) (c : Content) :
  mounted c = Some g ->
  let c' := initAudio g b InitOk c in
  sockets c'
    = sockets c ++ [{| readyState := CONNECTING; sent := []; closure_isTalking := b |}]
  /\ wsRef c' = Some (length (sockets c))
  /\ timers c' = timers c ++ [length (sockets c)]
  /\ isEngaged c' = isEngaged c
  /\ audioContextRef c' = Some (length (contexts c))
  /\ (exists cx, length cx = length (contexts c) /\ contexts c' = cx ++ [false])
  /\ audioWorkletNodeRef c' = Some (length (worklets c))
  /\ worklets c' = worklets c ++ [{| port := []; connected := true |}].
Proof.
  intros Hm. cbv zeta. unfold initAudio, initAudioWorklet, connectWebSocket.
  destruct (audioContextRef c) as [j|]; cbn;
    rewrite bool_decide_true by exact Hm; cbn; rewrite ?length_insert;
    repeat split; eexists; (split; [|reflexivity]);
    rewrite ?length_insert; reflexivity.
Qed.



(** ** A failed connect *)

Lemma filter_only (id : nat) (l : list nat) :
  (forall t, t ∈ l -> t = id) -> filter (fun t => t <> id) l = [].
Proof.
  induction l as [|x l IH]; intros H; [reflexivity|].
  rewrite filter_cons_False.
  - apply IH. intros t Ht. apply H. right. exact Ht.
  - intros Hne. apply Hne, H. left.
Qed.



(** ** The capture path *)

(** X17. From a connecting socket to a frame on the wire: when the socket
    of [wsRef] opens its timer is cancelled and the microphone is asked for;
    once it is granted, a block captured on the running audio context is
    sent on that socket as one frame, the base64 text of its little-endian
    16-bit samples, after whatever was sent before. *)
Theorem X17_capture_reaches_the_wire (c : Content) (id cx : nat)
    (ws : WebSocket) (samples : list number) :
  wsRef c = Some id -> sockets c !! id = Some ws ->
  readyState ws = CONNECTING ->
  audioContextRef c = Some cx -> contexts c !! cx = Some false ->
  let c' := run c [WsOpen id; MicrophoneSettled true;
                   AudioProcess (length (processors c)) samples] in
  sent <$> sockets c' !! id
    = Some (sent ws ++ [Base64.btoa (flat_map int16_bytes (floatToPcm16 samples))])
  /\ readyState <$> sockets c' !! id = Some OPEN
  /\ (id ∉ timers c')
  /\ attempts c' = attempts c.
Proof.
  intros Href Hws Hrs Hacr Hcx c'. subst c'. unfold run. cbn [foldl].
  assert (H1 : step c (WsOpen id)
               = onopen id (set_sockets (alter (set_readyState OPEN) id) c)).
  { cbn [step]. rewrite Hws, decide_True by exact Hrs. reflexivity. }
  rewrite H1. clear H1.
  set (c1 := onopen id (set_sockets (alter (set_readyState OPEN) id) c)).
  assert (H2 : step c1 (MicrophoneSettled true)
               = set_processors (fun pr => pr ++ [cx])
                   (set_microphones (fun _ => microphones c) c1)).
  { subst c1. cbn [step]. unfold onopen, initMicrophone. cbn. rewrite Hacr. reflexivity. }
  rewrite H2. clear H2.
  set (c2 := set_processors _ _).
  assert (H3 : step c2 (AudioProcess (length (processors c)) samples)
               = onaudioprocess samples c2).
  { subst c2 c1. cbn [step]. unfold onopen, clearTimeout. cbn.
    rewrite lookup_app_r, Nat.sub_diag by lia. cbn. rewrite Hcx. reflexivity. }
  rewrite H3. clear H3.
  assert (Hs2 : sockets c2 !! id = Some (set_readyState OPEN ws)).
  { subst c2 c1. unfold onopen, clearTimeout. cbn.
    rewrite list_lookup_alter_eq, Hws. reflexivity. }
  assert (Hr2 : wsRef c2 = Some id) by (subst c2 c1; exact Href).
  pose proof (onaudioprocess_open c2 id _ samples Hr2 Hs2 eq_refl) as Hsent.
  split; [exact Hsent|].
  assert (Hopen : current_socket c2 = Some (set_readyState OPEN ws))
    by (unfold current_socket; rewrite Hr2; exact Hs2).
  unfold onaudioprocess. rewrite Hr2, Hopen.
  destruct (decide (readyState (set_readyState OPEN ws) <> OPEN)) as [Hn|_];
    [exfalso; apply Hn; reflexivity|].
  destruct (encode samples) as [frame|]; unfold attempts; cbn;
    rewrite ?list_lookup_alter_eq, ?length_alter;
    subst c2 c1; unfold onopen, clearTimeout; cbn;
    rewrite ?list_lookup_alter_eq, ?length_alter, Hws; cbn;
    (repeat split; try reflexivity; rewrite list_elem_of_filter; tauto).
Qed.

Lemma X17_capture_witness :
  let c' := run engaged_connecting
              [WsOpen 0; MicrophoneSettled true;
               AudioProcess (length (processors engaged_connecting))
                 [Finite (1 # 2); Finite (-1 # 4)]] in
  sent <$> sockets c' !! 0%nat
    = Some ([] ++ [Base64.btoa
                     (flat_map int16_bytes
                        (floatToPcm16 [Finite (1 # 2); Finite (-1 # 4)]))])
  /\ readyState <$> sockets c' !! 0%nat = Some OPEN
  /\ (0%nat ∉ timers c')
  /\ attempts c' = attempts engaged_connecting.
Proof.
  apply (X17_capture_reaches_the_wire engaged_connecting 0 0
           {| readyState := CONNECTING; sent := []; closure_isTalking := false |}
           [Finite (1 # 2); Finite (-1 # 4)]); reflexivity.
Defined.
